(** * A shallow embedding of the lexical analyzer of [3rdprogram.c]

    The C program scans a NUL-terminated buffer with an [int] cursor and
    collects tokens, a symbol table and a list of invalid lexemes in a
    [LexicalAnalyzer] structure.  The embedding keeps that shape: the
    structure is a record, every routine takes the record and returns the
    updated one, and every [while] loop of the source is a recursive function
    on an explicit iteration budget that walks the same cursor.

    Conventions.
    - A C string is the list of the characters of its buffer; [strlen] stops
      at the first NUL (or at the end of the list, where the terminator sits).
    - [int] values are in [Z].  Signed overflow is undefined in C; the cursor
      never exceeds [strlen code + 1] (section C1 below), so the model is
      exact for every buffer shorter than [INT_MAX].
    - The capacity fields and the [realloc] calls of the three dynamic arrays
      only manage storage; the arrays are lists here. *)

From Stdlib Require Import ZArith List Ascii String Bool Lia.
From Stdlib Require Import Permutation Sorted.
Import ListNotations.

Local Open Scope Z_scope.

(** ** Machine integers *)

(** The cursor, the line counter and every [len] of the source are C [int]s,
    and [int len = strlen(code)] converts the [size_t] that [strlen] returns.
    For a buffer shorter than [INT_MAX] the conversion is exact and the cursor,
    which reaches at most [strlen code + 1], does not overflow; from [2^31]
    characters on the converted length is no longer the length of the buffer
    and the functions below do not describe the program. *)
Definition INT_MAX : Z := 2147483647.

(** ** C strings and characters *)

Definition cstr := list ascii.

Definition lit (s : string) : cstr := list_ascii_of_string s.

Definition NUL : ascii := Ascii.zero.
Definition NL : ascii := "010"%char.
Definition DQUOTE : ascii := "034"%char.
Definition SQUOTE : ascii := "039"%char.

Definition ord (c : ascii) : Z := Z.of_nat (nat_of_ascii c).

Fixpoint strlen_nat (s : cstr) : nat :=
  match s with
  | [] => O
  | c :: r => if Ascii.eqb c NUL then O else S (strlen_nat r)
  end.

Definition strlen (s : cstr) : Z := Z.of_nat (strlen_nat s).

(** [code[i]]: the buffer is the list followed by its terminator. *)
Definition char_at (code : cstr) (i : Z) : ascii :=
  if i <? 0 then NUL else nth (Z.to_nat i) code NUL.

(** [strchr(s, c) != NULL]; the terminator of [s] matches a NUL argument. *)
Definition strchr (s : cstr) (c : ascii) : bool :=
  Ascii.eqb c NUL || existsb (Ascii.eqb c) s.

(** [strcmp(a, b) == 0] *)
Fixpoint cstr_eqb (a b : cstr) : bool :=
  match a, b with
  | [], [] => true
  | x :: a', y :: b' => Ascii.eqb x y && cstr_eqb a' b'
  | _, _ => false
  end.

(** [tolower] in the "C" locale, on character codes. *)
Definition tolower (n : Z) : Z :=
  if (65 <=? n) && (n <=? 90) then n + 32 else n.

(** ** The data model *)

Record Token := mkToken { type : cstr; value : cstr }.

Record LexicalAnalyzer := mkLA {
  keywords : list cstr;
  operators : list cstr;
  punctuation : cstr;
  operator_chars : cstr;
  symbol_table : list cstr;
  lexical_errors : list cstr;
  tokens : list Token;
  current_pos : Z;
  line_no : Z
}.

Definition set_current_pos (la : LexicalAnalyzer) (p : Z) : LexicalAnalyzer :=
  mkLA (keywords la) (operators la) (punctuation la) (operator_chars la)
       (symbol_table la) (lexical_errors la) (tokens la) p (line_no la).

Definition set_line_no (la : LexicalAnalyzer) (n : Z) : LexicalAnalyzer :=
  mkLA (keywords la) (operators la) (punctuation la) (operator_chars la)
       (symbol_table la) (lexical_errors la) (tokens la) (current_pos la) n.

Definition set_tokens (la : LexicalAnalyzer) (ts : list Token) : LexicalAnalyzer :=
  mkLA (keywords la) (operators la) (punctuation la) (operator_chars la)
       (symbol_table la) (lexical_errors la) ts (current_pos la) (line_no la).

Definition set_symbol_table (la : LexicalAnalyzer) (st : list cstr) : LexicalAnalyzer :=
  mkLA (keywords la) (operators la) (punctuation la) (operator_chars la)
       st (lexical_errors la) (tokens la) (current_pos la) (line_no la).

Definition set_lexical_errors (la : LexicalAnalyzer) (es : list cstr) : LexicalAnalyzer :=
  mkLA (keywords la) (operators la) (punctuation la) (operator_chars la)
       (symbol_table la) es (tokens la) (current_pos la) (line_no la).

Definition keywords_arr : list cstr :=
  map lit
    ["auto"; "break"; "case"; "char"; "const"; "continue"; "default"; "do";
     "double"; "else"; "enum"; "extern"; "float"; "for"; "goto"; "if";
     "int"; "long"; "register"; "return"; "short"; "signed"; "sizeof"; "static";
     "struct"; "switch"; "typedef"; "union"; "unsigned"; "void"; "volatile"; "while"]%string.

Definition operators_arr : list cstr :=
  map lit
    ["+"; "-"; "*"; "/"; "%"; "="; "<"; ">"; "!"; "&"; "|"; "^"; "~";
     "+="; "-="; "*="; "/="; "%="; "=="; "<="; ">="; "!="; "&&"; "||";
     ">>="; "<<="; "++"; "--"]%string.

Definition init_lexical_analyzer : LexicalAnalyzer :=
  mkLA keywords_arr operators_arr (lit "(){},;[].") (lit "+-*/%=<>!&|^~")
       [] [] [] 0 1.

(** ** Character classes *)

Definition is_whitespace (ch : ascii) : bool :=
  Ascii.eqb ch " " || Ascii.eqb ch "009" || Ascii.eqb ch NL || Ascii.eqb ch "013".

Definition is_letter (ch : ascii) : bool :=
  let lower := tolower (ord ch) in
  (ord "a" <=? lower) && (lower <=? ord "z").

Definition is_digit (ch : ascii) : bool :=
  (ord "0" <=? ord ch) && (ord ch <=? ord "9").

(** ** Lookahead and table lookups *)

Fixpoint peek_loop (fuel : nat) (code : cstr) (len pos : Z) : Z :=
  match fuel with
  | O => pos
  | S f =>
      if (pos <? len) && is_whitespace (char_at code pos)
      then peek_loop f code len (pos + 1)
      else pos
  end.

Definition peek_next_non_whitespace (la : LexicalAnalyzer) (code : cstr) : ascii :=
  let pos := current_pos la + 1 in
  let len := strlen code in
  let pos := peek_loop (Z.to_nat (len - pos)) code len pos in
  if pos <? len then char_at code pos else NUL.

Definition is_in_keywords (la : LexicalAnalyzer) (lexeme : cstr) : bool :=
  existsb (fun k => cstr_eqb k lexeme) (keywords la).

Definition is_in_operators (la : LexicalAnalyzer) (op : cstr) : bool :=
  existsb (fun o => cstr_eqb o op) (operators la).

(** ** Appending to the three arrays *)

Definition push_token (la : LexicalAnalyzer) (token : Token) : LexicalAnalyzer :=
  set_tokens la (tokens la ++ [token]).

Definition push_symbol (la : LexicalAnalyzer) (identifier : cstr) : LexicalAnalyzer :=
  if existsb (fun s => cstr_eqb s identifier) (symbol_table la)
  then la
  else set_symbol_table la (symbol_table la ++ [identifier]).

Definition push_lexical_error (la : LexicalAnalyzer) (error : cstr) : LexicalAnalyzer :=
  set_lexical_errors la (lexical_errors la ++ [error]).

(** ** The numeric parser used by the lexeme reader

    Modelled from the spec: [strtod] is a C library routine, not code of this
    program; section 4.2 of the specification calls it the "standard numeric
    grammar".  [strtod_endptr s] is the offset [endptr - s] that ISO C
    (7.22.1.3, "C" locale) prescribes: optional white space, an optional sign,
    then a hexadecimal or decimal floating constant, INF, INFINITY or NAN; 0
    when no conversion is performed. *)

Fixpoint span (p : ascii -> bool) (s : cstr) : nat :=
  match s with
  | c :: r => if p c then S (span p r) else O
  | [] => O
  end.

Definition isspace (c : ascii) : bool :=
  Ascii.eqb c " " || ((9 <=? ord c) && (ord c <=? 13)).

Definition is_xdigit (c : ascii) : bool :=
  is_digit c || ((ord "a" <=? tolower (ord c)) && (tolower (ord c) <=? ord "f")).

Definition is_sign (c : ascii) : bool := Ascii.eqb c "+" || Ascii.eqb c "-".

Definition sign_len (s : cstr) : nat :=
  match s with
  | c :: _ => if is_sign c then 1%nat else O
  | [] => O
  end.

(** A non-empty digit sequence optionally containing a radix character. *)
Definition mantissa_len (dig : ascii -> bool) (s : cstr) : nat :=
  let i := span dig s in
  match skipn i s with
  | "."%char :: r =>
      let f := span dig r in
      if (i + f =? 0)%nat then O else (i + 1 + f)%nat
  | _ => i
  end.

(** An exponent part: the marker, an optional sign, at least one digit. *)
Definition exponent_len (mark : ascii) (s : cstr) : nat :=
  match s with
  | c :: r =>
      if ord mark =? tolower (ord c) then
        let sg := sign_len r in
        let d := span is_digit (skipn sg r) in
        if (d =? 0)%nat then O else (1 + sg + d)%nat
      else O
  | [] => O
  end.

Definition dec_len (s : cstr) : nat :=
  let m := mantissa_len is_digit s in
  if (m =? 0)%nat then O else (m + exponent_len "e" (skipn m s))%nat.

Definition hex_len (s : cstr) : nat :=
  match s with
  | "0"%char :: x :: r =>
      if ord "x" =? tolower (ord x) then
        let m := mantissa_len is_xdigit r in
        if (m =? 0)%nat then O else (2 + m + exponent_len "p" (skipn m r))%nat
      else O
  | _ => O
  end.

Fixpoint ci_prefix (w s : cstr) : bool :=
  match w, s with
  | [], _ => true
  | a :: w', b :: s' => (ord a =? tolower (ord b)) && ci_prefix w' s'
  | _ :: _, [] => false
  end.

Definition is_nchar (c : ascii) : bool :=
  is_letter c || is_digit c || Ascii.eqb c "_".

Definition nan_tail (s : cstr) : nat :=
  match s with
  | "("%char :: r =>
      let n := span is_nchar r in
      match skipn n r with
      | ")"%char :: _ => (n + 2)%nat
      | _ => O
      end
  | _ => O
  end.

Definition infnan_len (s : cstr) : nat :=
  if ci_prefix (lit "infinity") s then 8%nat
  else if ci_prefix (lit "inf") s then 3%nat
  else if ci_prefix (lit "nan") s then (3 + nan_tail (skipn 3 s))%nat
  else O.

Definition strtod_endptr (s : cstr) : nat :=
  let ws := span isspace s in
  let s1 := skipn ws s in
  let sg := sign_len s1 in
  let s2 := skipn sg s1 in
  let n :=
    let h := hex_len s2 in
    if (h =? 0)%nat then
      let d := dec_len s2 in
      if (d =? 0)%nat then infnan_len s2 else d
    else h in
  if (n =? 0)%nat then O else (ws + sg + n)%nat.

(** ** The readers *)

Definition empty_token : Token := mkToken [] [].

(** The [while] loop of [read_lexeme]: [lexeme] is the local buffer, whose
    [strlen] is its length because every character stored is read below
    [strlen code] and so is not NUL. *)
Fixpoint read_lexeme_loop (fuel : nat) (la : LexicalAnalyzer) (code : cstr)
    (len : Z) (lexeme : cstr) (pos : Z) : cstr * Z :=
  match fuel with
  | O => (lexeme, pos)
  | S f =>
      if (pos <? len)
         && negb (is_whitespace (char_at code pos))
         && negb (strchr (operator_chars la) (char_at code pos))
         && negb (strchr (punctuation la) (char_at code pos))
      then
        let l := Z.of_nat (List.length lexeme) in
        let lexeme := if l <? 255 then lexeme ++ [char_at code pos] else lexeme in
        read_lexeme_loop f la code len lexeme (pos + 1)
      else (lexeme, pos)
  end.

Definition ident_char (c : ascii) : bool :=
  is_letter c || is_digit c || Ascii.eqb c "_".

Definition read_lexeme (la : LexicalAnalyzer) (code : cstr) : Token * LexicalAnalyzer :=
  let len := strlen code in
  let '(lexeme, pos) :=
    read_lexeme_loop (Z.to_nat (len - current_pos la)) la code len [] (current_pos la) in
  let la := set_current_pos la (pos - 1) in
  if is_in_keywords la lexeme then (mkToken (lit "Keyword") lexeme, la)
  else if 0 <? Z.of_nat (List.length lexeme) then
    let c0 := nth 0 lexeme NUL in
    if (is_letter c0 || Ascii.eqb c0 "_") && forallb ident_char (skipn 1 lexeme) then
      let next_char := peek_next_non_whitespace la code in
      let la := if negb (Ascii.eqb next_char "(") then push_symbol la lexeme else la in
      (mkToken (lit "Identifier") lexeme, la)
    else if is_digit c0 && Ascii.eqb (nth (strtod_endptr lexeme) lexeme NUL) NUL then
      (mkToken (lit "Constant") lexeme, la)
    else (empty_token, push_lexical_error la lexeme)
  else (empty_token, la).

(** The loop shared, up to the quote character, by [read_character] and
    [read_string]; [buf] is [chr] / [str_val] and its length is [index]. *)
Fixpoint read_quoted_loop (fuel : nat) (code : cstr) (len : Z) (quote : ascii)
    (buf : cstr) (pos : Z) : cstr * Z :=
  match fuel with
  | O => (buf, pos)
  | S f =>
      if pos <? len then
        let ch := char_at code pos in
        let buf := if Z.of_nat (List.length buf) <? 255 then buf ++ [ch] else buf in
        if Ascii.eqb ch quote then (buf, pos)
        else read_quoted_loop f code len quote buf (pos + 1)
      else (buf, pos)
  end.

Definition read_character (la : LexicalAnalyzer) (code : cstr) : Token * LexicalAnalyzer :=
  let pos := current_pos la + 1 in
  let len := strlen code in
  let '(chr, pos) := read_quoted_loop (Z.to_nat (len - pos)) code len SQUOTE [SQUOTE] pos in
  (mkToken (lit "String") chr, set_current_pos la pos).

Definition read_string (la : LexicalAnalyzer) (code : cstr) : Token * LexicalAnalyzer :=
  let pos := current_pos la + 1 in
  let len := strlen code in
  let '(str_val, pos) := read_quoted_loop (Z.to_nat (len - pos)) code len DQUOTE [DQUOTE] pos in
  (mkToken (lit "String") str_val, set_current_pos la pos).

Definition read_operator (la : LexicalAnalyzer) (code : cstr) : Token * LexicalAnalyzer :=
  let len := strlen code in
  let op := [char_at code (current_pos la)] in
  let next_pos := current_pos la + 1 in
  if next_pos <? len then
    let potential_operator := [char_at code (current_pos la); char_at code next_pos] in
    if is_in_operators la potential_operator
    then (mkToken (lit "Operator") potential_operator, set_current_pos la (current_pos la + 1))
    else (mkToken (lit "Operator") op, la)
  else (mkToken (lit "Operator") op, la).

(** ** Comments *)

Fixpoint skip_line_loop (fuel : nat) (code : cstr) (len pos : Z) : Z :=
  match fuel with
  | O => pos
  | S f =>
      if (pos <? len) && negb (Ascii.eqb (char_at code pos) NL)
      then skip_line_loop f code len (pos + 1)
      else pos
  end.

Fixpoint skip_block_loop (fuel : nat) (code : cstr) (len pos line : Z) : Z * Z :=
  match fuel with
  | O => (pos, line)
  | S f =>
      if pos <? len - 1 then
        let line := if Ascii.eqb (char_at code pos) NL then line + 1 else line in
        if Ascii.eqb (char_at code pos) "*" && Ascii.eqb (char_at code (pos + 1)) "/"
        then (pos + 1, line)
        else skip_block_loop f code len (pos + 1) line
      else (pos, line)
  end.

Definition skip_comment (la : LexicalAnalyzer) (code : cstr) : LexicalAnalyzer :=
  let len := strlen code in
  let pos := current_pos la in
  if (pos + 1 <? len) && Ascii.eqb (char_at code pos) "/"
     && Ascii.eqb (char_at code (pos + 1)) "/"
  then set_current_pos la (skip_line_loop (Z.to_nat (len - pos)) code len pos)
  else if (pos + 1 <? len) && Ascii.eqb (char_at code pos) "/"
          && Ascii.eqb (char_at code (pos + 1)) "*"
  then
    let '(pos', line') :=
      skip_block_loop (Z.to_nat (len - (pos + 2))) code len (pos + 2) (line_no la) in
    set_line_no (set_current_pos la pos') line'
  else la.

(** ** The driving loop *)

(** One iteration of the [while] loop of [tokenize], entered with
    [current_pos la < strlen code]. *)
Definition tokenize_step (la : LexicalAnalyzer) (code : cstr) : LexicalAnalyzer :=
  let len := strlen code in
  let ch := char_at code (current_pos la) in
  if is_whitespace ch then
    let la := if Ascii.eqb ch NL then set_line_no la (line_no la + 1) else la in
    set_current_pos la (current_pos la + 1)
  else if Ascii.eqb ch "/" && (current_pos la + 1 <? len)
          && (Ascii.eqb (char_at code (current_pos la + 1)) "/"
              || Ascii.eqb (char_at code (current_pos la + 1)) "*")
  then
    let la := skip_comment la code in
    set_current_pos la (current_pos la + 1)
  else
    let la :=
      if is_letter ch || Ascii.eqb ch "_" || is_digit ch then
        let '(token, la) := read_lexeme la code in
        if 0 <? strlen (type token) then push_token la token else la
      else if Ascii.eqb ch DQUOTE then
        let '(token, la) := read_string la code in push_token la token
      else if Ascii.eqb ch SQUOTE then
        let '(token, la) := read_character la code in push_token la token
      else if strchr (operator_chars la) ch then
        let '(token, la) := read_operator la code in push_token la token
      else if strchr (punctuation la) ch then
        push_token la (mkToken (lit "Punctuation") [ch])
      else la in
    set_current_pos la (current_pos la + 1).

Fixpoint tokenize_loop (fuel : nat) (la : LexicalAnalyzer) (code : cstr)
    : option LexicalAnalyzer :=
  if current_pos la <? strlen code then
    match fuel with
    | O => None
    | S f => tokenize_loop f (tokenize_step la code) code
    end
  else Some la.

(** [tokenize] resets the token array and the cursor, then runs the loop.
    Every iteration moves the cursor forward, so [strlen code] iterations are
    enough (section C1 below); [None] would be a loop that is still running
    after that many. *)
Definition tokenize (la : LexicalAnalyzer) (code : cstr) : option LexicalAnalyzer :=
  let la := set_current_pos (set_tokens la []) 0 in
  tokenize_loop (Z.to_nat (strlen code)) la code.

(** ** The report: sorting the symbol table

    [analyze] reads the file into a buffer, calls [tokenize], prints the
    tokens and the errors, sorts the symbol table in place and prints it.
    The embedding starts where the buffer is filled; the [printf] calls only
    write what the analyzer holds and are left out. *)

(** [strcmp(a, b)]; ISO C fixes the sign of the result only.  The strings are
    compared as sequences of unsigned characters. *)
Fixpoint strcmp (a b : cstr) : Z :=
  match a, b with
  | [], [] => 0
  | [], _ :: _ => -1
  | _ :: _, [] => 1
  | x :: a', y :: b' => if ord x =? ord y then strcmp a' b' else ord x - ord y
  end.

(** [t[n] = x] *)
Fixpoint upd {A : Type} (t : list A) (n : nat) (x : A) : list A :=
  match t, n with
  | [], _ => []
  | _ :: r, O => x :: r
  | y :: r, S k => y :: upd r k x
  end.

(** The three assignments that exchange [t[i]] and [t[j]]. *)
Definition swap_entries (t : list cstr) (i j : Z) : list cstr :=
  let temp := nth (Z.to_nat i) t [] in
  let t := upd t (Z.to_nat i) (nth (Z.to_nat j) t []) in
  upd t (Z.to_nat j) temp.

(** The inner and the outer [for] loop of the sort. *)
Fixpoint sort_inner (fuel : nat) (t : list cstr) (count i j : Z) : list cstr :=
  match fuel with
  | O => t
  | S f =>
      if j <? count then
        let t :=
          if strcmp (nth (Z.to_nat i) t []) (nth (Z.to_nat j) t []) >? 0
          then swap_entries t i j else t in
        sort_inner f t count i (j + 1)
      else t
  end.

Fixpoint sort_outer (fuel : nat) (t : list cstr) (count i : Z) : list cstr :=
  match fuel with
  | O => t
  | S f =>
      if i <? count - 1 then
        let t := sort_inner (Z.to_nat (count - (i + 1))) t count i (i + 1) in
        sort_outer f t count (i + 1)
      else t
  end.

Definition sort_symbol_table (la : LexicalAnalyzer) : LexicalAnalyzer :=
  let count := Z.of_nat (List.length (symbol_table la)) in
  set_symbol_table la (sort_outer (Z.to_nat count) (symbol_table la) count 0).

(** [analyze] from the filled buffer on: the scan, then the sort; the result
    holds the three lists as they are printed. *)
Definition analyze (la : LexicalAnalyzer) (code : cstr) : option LexicalAnalyzer :=
  match tokenize la code with
  | Some la => Some (sort_symbol_table la)
  | None => None
  end.
(** ** Definitions used to state the properties *)

(** The tables installed by [init_lexical_analyzer]; no routine changes them. *)
Definition same_tables (a b : LexicalAnalyzer) : Prop :=
  keywords a = keywords b /\ operators a = operators b /\
  punctuation a = punctuation b /\ operator_chars a = operator_chars b.

Definition initialized (la : LexicalAnalyzer) : Prop :=
  same_tables la init_lexical_analyzer.

(** A delimiter ends a lexeme. *)
Definition is_delim (c : ascii) : bool :=
  is_whitespace c
  || strchr (operator_chars init_lexical_analyzer) c
  || strchr (punctuation init_lexical_analyzer) c.

(** The characters on which the driving loop calls [read_lexeme]. *)
Definition lexeme_start (c : ascii) : bool :=
  is_letter c || Ascii.eqb c "_" || is_digit c.

(** The results of the loops of the readers, named. *)
Definition lexeme_of (la : LexicalAnalyzer) (code : cstr) : cstr :=
  fst (read_lexeme_loop (Z.to_nat (strlen code - current_pos la)) la code
         (strlen code) [] (current_pos la)).

Definition lexeme_end (la : LexicalAnalyzer) (code : cstr) : Z :=
  snd (read_lexeme_loop (Z.to_nat (strlen code - current_pos la)) la code
         (strlen code) [] (current_pos la)).

Definition quoted_text (la : LexicalAnalyzer) (code : cstr) (quote : ascii) : cstr :=
  fst (read_quoted_loop (Z.to_nat (strlen code - (current_pos la + 1))) code
         (strlen code) quote [quote] (current_pos la + 1)).

Definition quoted_end (la : LexicalAnalyzer) (code : cstr) (quote : ascii) : Z :=
  snd (read_quoted_loop (Z.to_nat (strlen code - (current_pos la + 1))) code
         (strlen code) quote [quote] (current_pos la + 1)).

Definition block_end (la : LexicalAnalyzer) (code : cstr) : Z * Z :=
  skip_block_loop (Z.to_nat (strlen code - (current_pos la + 2))) code
    (strlen code) (current_pos la + 2) (line_no la).

Definition line_end (la : LexicalAnalyzer) (code : cstr) : Z :=
  skip_line_loop (Z.to_nat (strlen code - current_pos la)) code (strlen code)
    (current_pos la).

(** The two classification tests of [read_lexeme] that follow the keyword
    lookup. *)
Definition is_identifier (lexeme : cstr) : bool :=
  match lexeme with
  | c :: r => (is_letter c || Ascii.eqb c "_") && forallb ident_char r
  | [] => false
  end.

Definition is_number (lexeme : cstr) : bool :=
  is_digit (nth 0 lexeme NUL) && Ascii.eqb (nth (strtod_endptr lexeme) lexeme NUL) NUL.

(** An Operator token with a text of one or two characters. *)
Definition short_operator (t : Token) : Prop :=
  type t = lit "Operator" ->
  (List.length (value t) = 1 \/ List.length (value t) = 2)%nat.

(** The number of newline characters of the input. *)
Definition count_newlines (code : cstr) : Z :=
  Z.of_nat (List.length (filter (Ascii.eqb NL) (firstn (strlen_nat code) code))).

(** The maximal run of characters that are not delimiters, from the head of a
    buffer and from a position of the input.  The terminator is a delimiter
    ([strchr] finds NUL in every table), so a run stops at [strlen code]. *)
Fixpoint take_run (s : cstr) : cstr :=
  match s with
  | c :: r => if is_delim c then [] else c :: take_run r
  | [] => []
  end.

Definition run_at (code : cstr) (pos : Z) : cstr :=
  take_run (skipn (Z.to_nat pos) code).

(** The characters of the input from [pos] to its end. *)
Definition input_from (code : cstr) (pos : Z) : cstr :=
  firstn (Z.to_nat (strlen code - pos)) (skipn (Z.to_nat pos) code).

(** The states of a scan: [scan_state la code n] is the analyzer after [n]
    iterations of the loop of [tokenize la code] (the loop stays where it is
    once the cursor has reached the end of the input). *)
Definition tokenize_next (la : LexicalAnalyzer) (code : cstr) : LexicalAnalyzer :=
  if current_pos la <? strlen code then tokenize_step la code else la.

Fixpoint scan_state (la : LexicalAnalyzer) (code : cstr) (n : nat) : LexicalAnalyzer :=
  match n with
  | O => set_current_pos (set_tokens la []) 0
  | S k => tokenize_next (scan_state la code k) code
  end.

(** Iteration [n] of the scan calls [read_lexeme], which reads [lexeme]. *)
Definition reads_lexeme (la : LexicalAnalyzer) (code : cstr) (n : nat) (lexeme : cstr) : Prop :=
  current_pos (scan_state la code n) < strlen code /\
  lexeme_start (char_at code (current_pos (scan_state la code n))) = true /\
  lexeme_of (scan_state la code n) code = lexeme.

(** The lexeme at the cursor of [la] is followed, after whitespace, by [(]:
    the test of [read_lexeme] for a function name. *)
Definition followed_by_paren (la : LexicalAnalyzer) (code : cstr) : Prop :=
  peek_next_non_whitespace (set_current_pos la (lexeme_end la code - 1)) code = "("%char.

Definition cstr_eq_dec : forall a b : cstr, {a = b} + {a <> b} :=
  list_eq_dec ascii_dec.

(** What a second scan adds to an analyzer [a] that already holds the symbols
    [T], the errors [E] and a line counter ahead by [d], compared with the
    same scan run by an analyzer [b]. *)
Definition not_in (T : list cstr) (x : cstr) : bool :=
  negb (existsb (fun s => cstr_eqb s x) T).

Definition accumulates (T E : list cstr) (d : Z) (a b : LexicalAnalyzer) : Prop :=
  same_tables a b /\
  current_pos a = current_pos b /\
  tokens a = tokens b /\
  lexical_errors a = E ++ lexical_errors b /\
  line_no a = d + line_no b /\
  symbol_table a = T ++ filter (not_in T) (symbol_table b).

(** The order of the sort: [a] does not come after [b]. *)
Definition cstr_le (a b : cstr) : Prop := strcmp a b <= 0.

(** What one pass of the inner loop of the sort computes: the entry left at
    the front and the entries left behind it, for a front entry [x] followed
    by [rest]. *)
Fixpoint select_min (x : cstr) (rest : list cstr) : cstr * list cstr :=
  match rest with
  | [] => (x, [])
  | y :: r =>
      if strcmp x y >? 0
      then (fst (select_min y r), x :: snd (select_min y r))
      else (fst (select_min x r), y :: snd (select_min x r))
  end.

Definition cstr_lt (a b : cstr) : Prop := strcmp a b < 0.

(** The shape of what the lexeme reader reads at a letter, a digit or an
    underscore: between 1 and 255 characters, none of them a delimiter. *)
Definition lexeme_shape (v : cstr) : Prop :=
  (1 <= List.length v <= 255)%nat /\
  lexeme_start (hd NUL v) = true /\
  forallb (fun c => negb (is_delim c)) v = true.

(** A token as the driving loop can emit it: its kind is one of six and its
    text passes the test of the branch of the code that emits the kind. *)
Definition token_ok (t : Token) : Prop :=
  (1 <= List.length (value t) <= 255)%nat /\
  ((type t = lit "Keyword" /\ In (value t) keywords_arr) \/
   (type t = lit "Identifier" /\ is_identifier (value t) = true /\
    ~ In (value t) keywords_arr) \/
   (type t = lit "Constant" /\ is_number (value t) = true /\
    lexeme_shape (value t)) \/
   (type t = lit "String" /\
    (hd NUL (value t) = DQUOTE \/ hd NUL (value t) = SQUOTE)) \/
   (type t = lit "Operator" /\ In (value t) operators_arr) \/
   (type t = lit "Punctuation" /\
    exists c, value t = [c] /\ In c (punctuation init_lexical_analyzer))).

(** An entry of the error list as the lexeme reader can record it. *)
Definition error_ok (e : cstr) : Prop :=
  lexeme_shape e /\ ~ In e keywords_arr /\
  is_identifier e = false /\ is_number e = false.

(** The characters of the input at the positions [a], ..., [b - 1], and the
    number of newlines among some characters. *)
Definition slice (code : cstr) (a b : Z) : cstr :=
  firstn (Z.to_nat (b - a)) (skipn (Z.to_nat a) code).

Definition count_nl (s : cstr) : Z :=
  Z.of_nat (List.length (filter (Ascii.eqb NL) s)).

(** Intervals [(a, b)] of positions, each non-empty, in increasing order and
    without overlap, between [lo] and [hi]. *)
Fixpoint chain (lo : Z) (ivs : list (Z * Z)) (hi : Z) : Prop :=
  match ivs with
  | [] => lo <= hi
  | (a, b) :: r => lo <= a /\ a < b /\ chain b r hi
  end.

(** The text a token keeps of the characters at [a], ..., [b - 1]. *)
Definition kept_text (code : cstr) (iv : Z * Z) : cstr :=
  firstn 255 (slice code (fst iv) (snd iv)).

(** Two buffers that hold the same C string: the same length and the same
    characters up to the terminator. *)
Definition same_string (c1 c2 : cstr) : Prop :=
  strlen c1 = strlen c2 /\ forall i, i <= strlen c1 -> char_at c1 i = char_at c2 i.

(** * Properties *)

(** ** Characters *)

Lemma strlen_nonneg (s : cstr) : 0 <= strlen s.
Proof. unfold strlen. lia. Qed.

Lemma cstr_eqb_eq (a b : cstr) : cstr_eqb a b = true <-> a = b.
Proof.
  revert b. induction a as [|x a IH]; intros [|y b]; simpl; split;
    try congruence; try reflexivity.
  - rewrite andb_true_iff, Ascii.eqb_eq, IH. intros [-> ->]. reflexivity.
  - intros E. injection E as -> ->. rewrite Ascii.eqb_refl.
    apply IH. reflexivity.
Qed.

Lemma cstr_eqb_refl (a : cstr) : cstr_eqb a a = true.
Proof. apply cstr_eqb_eq. reflexivity. Qed.

Lemma existsb_cstr_eqb (l : list cstr) (x : cstr) :
  existsb (fun s => cstr_eqb s x) l = true <-> In x l.
Proof.
  rewrite existsb_exists. split.
  - intros [y [Hy E]]. apply cstr_eqb_eq in E. subst. assumption.
  - intros H. exists x. split; [assumption | apply cstr_eqb_refl].
Qed.

Lemma lexeme_start_not_delim (c : ascii) :
  lexeme_start c = true -> is_delim c = false.
Proof.
  destruct c as [[] [] [] [] [] [] [] []]; vm_compute; congruence.
Qed.

Lemma ident_char_not_delim (c : ascii) :
  ident_char c = true -> is_delim c = false.
Proof.
  destruct c as [[] [] [] [] [] [] [] []]; vm_compute; congruence.
Qed.

Lemma is_digit_not_delim (c : ascii) : is_digit c = true -> is_delim c = false.
Proof.
  destruct c as [[] [] [] [] [] [] [] []]; vm_compute; congruence.
Qed.

(** ** The inner loops only move the cursor forward, and never past the end *)

Lemma read_lexeme_loop_bounds fuel la code len lexeme pos :
  pos <= snd (read_lexeme_loop fuel la code len lexeme pos) /\
  (snd (read_lexeme_loop fuel la code len lexeme pos) <= len \/
   snd (read_lexeme_loop fuel la code len lexeme pos) = pos).
Proof.
  revert lexeme pos. induction fuel as [|f IH]; intros lexeme pos; simpl.
  - lia.
  - destruct (pos <? len) eqn:Hlt; simpl; [|lia].
    apply Z.ltb_lt in Hlt.
    match goal with |- context [if ?b then _ else _] => destruct b end;
      simpl; [|lia].
    match goal with |- context [read_lexeme_loop f la code len ?l (pos + 1)] =>
      specialize (IH l (pos + 1)) end.
    lia.
Qed.

Lemma read_quoted_loop_bounds fuel code len quote buf pos :
  pos <= snd (read_quoted_loop fuel code len quote buf pos) /\
  (snd (read_quoted_loop fuel code len quote buf pos) <= len \/
   snd (read_quoted_loop fuel code len quote buf pos) = pos).
Proof.
  revert buf pos. induction fuel as [|f IH]; intros buf pos; simpl.
  - lia.
  - destruct (pos <? len) eqn:Hlt; simpl; [|lia].
    apply Z.ltb_lt in Hlt.
    destruct (Ascii.eqb (char_at code pos) quote); simpl; [lia|].
    match goal with |- context [read_quoted_loop f code len quote ?l (pos + 1)] =>
      specialize (IH l (pos + 1)) end.
    lia.
Qed.

Lemma skip_line_loop_bounds fuel code len pos :
  pos <= skip_line_loop fuel code len pos /\
  (skip_line_loop fuel code len pos <= len \/ skip_line_loop fuel code len pos = pos).
Proof.
  revert pos. induction fuel as [|f IH]; intros pos; simpl.
  - lia.
  - destruct (pos <? len) eqn:Hlt; simpl; [|lia].
    apply Z.ltb_lt in Hlt.
    destruct (Ascii.eqb (char_at code pos) NL); simpl; [lia|].
    specialize (IH (pos + 1)). lia.
Qed.

Lemma skip_block_loop_bounds fuel code len pos line :
  pos <= fst (skip_block_loop fuel code len pos line) /\
  (fst (skip_block_loop fuel code len pos line) <= len - 1 \/
   fst (skip_block_loop fuel code len pos line) = pos) /\
  line <= snd (skip_block_loop fuel code len pos line).
Proof.
  revert pos line. induction fuel as [|f IH]; intros pos line; simpl.
  - lia.
  - destruct (pos <? len - 1) eqn:Hlt; simpl; [|lia].
    apply Z.ltb_lt in Hlt.
    destruct (Ascii.eqb (char_at code pos) "*" && Ascii.eqb (char_at code (pos + 1)) "/");
      simpl.
    + destruct (Ascii.eqb (char_at code pos) NL); simpl; lia.
    + match goal with |- context [skip_block_loop f code len (pos + 1) ?l] =>
        specialize (IH (pos + 1) l) end.
      destruct (Ascii.eqb (char_at code pos) NL); lia.
Qed.

(** ** The iteration budgets are enough: each loop stops on its own test *)

Lemma peek_loop_exit fuel code len pos :
  len - pos <= Z.of_nat fuel ->
  (peek_loop fuel code len pos <? len)
  && is_whitespace (char_at code (peek_loop fuel code len pos)) = false.
Proof.
  revert pos. induction fuel as [|f IH]; intros pos Hf; cbn [peek_loop].
  - replace (pos <? len) with false by (symmetry; apply Z.ltb_ge; lia). reflexivity.
  - destruct ((pos <? len) && is_whitespace (char_at code pos)) eqn:E.
    + apply IH. lia.
    + exact E.
Qed.

Lemma read_quoted_loop_exit fuel code len quote buf pos :
  len - pos <= Z.of_nat fuel ->
  snd (read_quoted_loop fuel code len quote buf pos) < len ->
  char_at code (snd (read_quoted_loop fuel code len quote buf pos)) = quote.
Proof.
  revert buf pos. induction fuel as [|f IH]; intros buf pos Hf; cbn [read_quoted_loop].
  - cbn [snd]. lia.
  - destruct (pos <? len) eqn:Hlt.
    + destruct (Ascii.eqb (char_at code pos) quote) eqn:E.
      * cbn [snd]. intros _. apply Ascii.eqb_eq. exact E.
      * apply IH. lia.
    + apply Z.ltb_ge in Hlt. cbn [snd]. lia.
Qed.

Lemma skip_block_loop_exit fuel code len pos line :
  len - pos <= Z.of_nat fuel ->
  fst (skip_block_loop fuel code len pos line) < len - 1 ->
  char_at code (fst (skip_block_loop fuel code len pos line) - 1) = "*"%char /\
  char_at code (fst (skip_block_loop fuel code len pos line)) = "/"%char.
Proof.
  revert pos line. induction fuel as [|f IH]; intros pos line Hf; cbn [skip_block_loop].
  - cbn [fst]. lia.
  - destruct (pos <? len - 1) eqn:Hlt.
    + destruct (Ascii.eqb (char_at code pos) "*"
                && Ascii.eqb (char_at code (pos + 1)) "/") eqn:E.
      * cbn [fst]. intros _. apply andb_true_iff in E.
        rewrite !Ascii.eqb_eq in E. replace (pos + 1 - 1) with pos by lia. exact E.
      * apply IH. lia.
    + apply Z.ltb_ge in Hlt. cbn [fst]. lia.
Qed.

(** ** The readers, with their loops named *)

Lemma read_lexeme_eq la code :
  read_lexeme la code =
  let lexeme := lexeme_of la code in
  let la1 := set_current_pos la (lexeme_end la code - 1) in
  if is_in_keywords la lexeme then (mkToken (lit "Keyword") lexeme, la1)
  else match lexeme with
       | [] => (empty_token, la1)
       | _ :: _ =>
           if is_identifier lexeme then
             (mkToken (lit "Identifier") lexeme,
              if Ascii.eqb (peek_next_non_whitespace la1 code) "("
              then la1 else push_symbol la1 lexeme)
           else if is_number lexeme then (mkToken (lit "Constant") lexeme, la1)
           else (empty_token, push_lexical_error la1 lexeme)
       end.
Proof.
  unfold read_lexeme, lexeme_of, lexeme_end.
  destruct (read_lexeme_loop _ la code (strlen code) [] (current_pos la)) as [lexeme pos].
  cbn [fst snd]. cbv zeta.
  change (is_in_keywords (set_current_pos la (pos - 1)) lexeme)
    with (is_in_keywords la lexeme).
  destruct (is_in_keywords la lexeme); [reflexivity|].
  destruct lexeme as [|c r]; [reflexivity|].
  change (0 <? Z.of_nat (List.length (c :: r))) with true. cbv iota.
  unfold is_identifier, is_number. cbn [nth skipn].
  destruct ((is_letter c || Ascii.eqb c "_") && forallb ident_char r); [|reflexivity].
  destruct (Ascii.eqb (peek_next_non_whitespace (set_current_pos la (pos - 1)) code) "(");
    reflexivity.
Qed.

Lemma read_string_eq la code :
  read_string la code =
  (mkToken (lit "String") (quoted_text la code DQUOTE),
   set_current_pos la (quoted_end la code DQUOTE)).
Proof.
  unfold read_string, quoted_text, quoted_end.
  destruct (read_quoted_loop _ code (strlen code) DQUOTE [DQUOTE] (current_pos la + 1)).
  reflexivity.
Qed.

Lemma read_character_eq la code :
  read_character la code =
  (mkToken (lit "String") (quoted_text la code SQUOTE),
   set_current_pos la (quoted_end la code SQUOTE)).
Proof.
  unfold read_character, quoted_text, quoted_end.
  destruct (read_quoted_loop _ code (strlen code) SQUOTE [SQUOTE] (current_pos la + 1)).
  reflexivity.
Qed.

Lemma skip_comment_eq la code :
  skip_comment la code =
  if (current_pos la + 1 <? strlen code) && Ascii.eqb (char_at code (current_pos la)) "/"
     && Ascii.eqb (char_at code (current_pos la + 1)) "/"
  then set_current_pos la (line_end la code)
  else if (current_pos la + 1 <? strlen code) && Ascii.eqb (char_at code (current_pos la)) "/"
          && Ascii.eqb (char_at code (current_pos la + 1)) "*"
  then set_line_no (set_current_pos la (fst (block_end la code))) (snd (block_end la code))
  else la.
Proof.
  unfold skip_comment, block_end, line_end.
  destruct (skip_block_loop _ code (strlen code) (current_pos la + 2) (line_no la)).
  reflexivity.
Qed.

Ltac break_if :=
  match goal with
  | |- context [if ?b then _ else _] => destruct b eqn:?
  | |- context [match ?x with [] => _ | _ :: _ => _ end] => destruct x eqn:?
  end.

Ltac step_cases :=
  unfold tokenize_step;
  rewrite ?read_lexeme_eq, ?read_string_eq, ?read_character_eq, ?skip_comment_eq;
  unfold read_operator, push_token, push_symbol, push_lexical_error;
  cbv zeta;
  repeat break_if; cbn -[Z.add Z.sub lit].

Lemma tokenize_step_same_tables la code : same_tables (tokenize_step la code) la.
Proof. unfold same_tables. step_cases; auto. Qed.

Lemma initialized_step la code :
  initialized la -> initialized (tokenize_step la code).
Proof.
  unfold initialized. intros H.
  pose proof (tokenize_step_same_tables la code) as S.
  unfold same_tables in *. intuition congruence.
Qed.

Lemma lexeme_loop_cond la c :
  initialized la ->
  negb (is_whitespace c) && negb (strchr (operator_chars la) c)
    && negb (strchr (punctuation la) c) = negb (is_delim c).
Proof.
  intros (_ & _ & Hp & Ho). rewrite Hp, Ho. unfold is_delim.
  rewrite !negb_orb. reflexivity.
Qed.

Lemma read_lexeme_loop_S f la code len lexeme pos :
  initialized la ->
  read_lexeme_loop (S f) la code len lexeme pos =
  if (pos <? len) && negb (is_delim (char_at code pos))
  then read_lexeme_loop f la code len
         (if Z.of_nat (List.length lexeme) <? 255
          then lexeme ++ [char_at code pos] else lexeme) (pos + 1)
  else (lexeme, pos).
Proof.
  intros Hi. cbn [read_lexeme_loop].
  rewrite <- (lexeme_loop_cond la _ Hi), !andb_assoc. reflexivity.
Qed.

Lemma lexeme_end_bounds la code :
  initialized la ->
  0 <= current_pos la < strlen code ->
  lexeme_start (char_at code (current_pos la)) = true ->
  current_pos la + 1 <= lexeme_end la code <= strlen code.
Proof.
  intros Hi Hp Hs. unfold lexeme_end.
  destruct (Z.to_nat (strlen code - current_pos la)) as [|f] eqn:Hf; [lia|].
  rewrite read_lexeme_loop_S by assumption.
  rewrite (lexeme_start_not_delim _ Hs).
  replace (current_pos la <? strlen code) with true by (symmetry; apply Z.ltb_lt; lia).
  cbn [andb negb].
  match goal with |- context [read_lexeme_loop f la code ?n ?l ?q] =>
    pose proof (read_lexeme_loop_bounds f la code n l q) end.
  lia.
Qed.

Lemma quoted_end_bounds la code quote :
  current_pos la < strlen code ->
  current_pos la + 1 <= quoted_end la code quote <= strlen code.
Proof.
  intros Hp. unfold quoted_end.
  match goal with |- context [read_quoted_loop ?f code ?n ?q ?l ?p] =>
    pose proof (read_quoted_loop_bounds f code n q l p) end.
  lia.
Qed.

Lemma line_end_bounds la code :
  current_pos la < strlen code ->
  current_pos la <= line_end la code <= strlen code.
Proof.
  intros Hp. unfold line_end.
  pose proof (skip_line_loop_bounds (Z.to_nat (strlen code - current_pos la)) code
                (strlen code) (current_pos la)).
  lia.
Qed.

Lemma block_end_bounds la code :
  current_pos la + 1 < strlen code ->
  current_pos la + 2 <= fst (block_end la code) <= strlen code /\
  line_no la <= snd (block_end la code).
Proof.
  intros Hp. unfold block_end.
  match goal with |- context [skip_block_loop ?f code ?n ?p ?l] =>
    pose proof (skip_block_loop_bounds f code n p l) end.
  lia.
Qed.

(** Every iteration of the driving loop moves the cursor forward, to at most
    one position past the terminator. *)
Lemma tokenize_step_progress la code :
  initialized la ->
  0 <= current_pos la < strlen code ->
  current_pos la < current_pos (tokenize_step la code) <= strlen code + 1.
Proof.
  intros Hi Hp.
  pose proof (quoted_end_bounds la code DQUOTE (proj2 Hp)).
  pose proof (quoted_end_bounds la code SQUOTE (proj2 Hp)).
  pose proof (line_end_bounds la code (proj2 Hp)).
  assert (Hlex : lexeme_start (char_at code (current_pos la)) = true ->
                 current_pos la + 1 <= lexeme_end la code <= strlen code)
    by (apply lexeme_end_bounds; assumption).
  unfold lexeme_start in Hlex.
  assert (Hblk : current_pos la + 1 < strlen code ->
                 current_pos la + 2 <= fst (block_end la code) <= strlen code)
    by (intros; apply block_end_bounds; assumption).
  step_cases;
    repeat match goal with
           | H : (_ && _) = true |- _ => apply andb_true_iff in H; destruct H
           | H : (_ <? _) = true |- _ => apply Z.ltb_lt in H
           | H : (_ <? _) = false |- _ => apply Z.ltb_ge in H
           end;
    try (specialize (Hlex eq_refl)); try lia.
Qed.

(** ** The driving loop: an invariant rule *)

Lemma tokenize_loop_invariant code (I : LexicalAnalyzer -> Prop) :
  (forall la, initialized la -> 0 <= current_pos la < strlen code ->
              I la -> I (tokenize_step la code)) ->
  forall fuel la,
    initialized la -> 0 <= current_pos la ->
    strlen code - current_pos la <= Z.of_nat fuel -> I la ->
    exists la', tokenize_loop fuel la code = Some la' /\
                initialized la' /\ I la' /\ strlen code <= current_pos la'.
Proof.
  intros Hstep. induction fuel as [|f IH]; intros la Hi Hp Hf HI.
  - exists la. cbn. replace (current_pos la <? strlen code) with false
      by (symmetry; apply Z.ltb_ge; lia).
    repeat split; try assumption; try apply Hi. lia.
  - cbn [tokenize_loop]. destruct (current_pos la <? strlen code) eqn:Hlt.
    + apply Z.ltb_lt in Hlt.
      pose proof (tokenize_step_progress la code Hi (conj Hp Hlt)).
      apply IH.
      * apply initialized_step; assumption.
      * lia.
      * lia.
      * apply Hstep; auto.
    + apply Z.ltb_ge in Hlt. exists la.
      repeat split; try assumption; try apply Hi.
Qed.

Lemma initialized_reset la :
  initialized la -> initialized (set_current_pos (set_tokens la []) 0).
Proof. intros H. exact H. Qed.

Lemma tokenize_invariant code (I : LexicalAnalyzer -> Prop) la :
  initialized la ->
  I (set_current_pos (set_tokens la []) 0) ->
  (forall s, initialized s -> 0 <= current_pos s < strlen code ->
             I s -> I (tokenize_step s code)) ->
  exists la', tokenize la code = Some la' /\ initialized la' /\ I la' /\
              strlen code <= current_pos la'.
Proof.
  intros Hi H0 Hstep. unfold tokenize.
  apply (tokenize_loop_invariant code I Hstep); auto.
  - cbn. lia.
  - cbn. pose proof (strlen_nonneg code). lia.
Qed.


(** ** The model, run on the sample inputs of the specification *)

Example scan_declaration :
  option_map (fun la => (tokens la, symbol_table la, lexical_errors la))
    (tokenize init_lexical_analyzer (lit "int x = 10;")) =
  Some ([mkToken (lit "Keyword") (lit "int"); mkToken (lit "Identifier") (lit "x");
         mkToken (lit "Operator") (lit "="); mkToken (lit "Constant") (lit "10");
         mkToken (lit "Punctuation") (lit ";")],
        [lit "x"], []).
Proof. vm_compute. reflexivity. Qed.

Example scan_after_line_comment :
  option_map tokens
    (tokenize init_lexical_analyzer (lit "// comment" ++ NL :: lit "int y;")) =
  Some [mkToken (lit "Keyword") (lit "int"); mkToken (lit "Identifier") (lit "y");
        mkToken (lit "Punctuation") (lit ";")].
Proof. vm_compute. reflexivity. Qed.

Example scan_string_literal :
  option_map tokens
    (tokenize init_lexical_analyzer (DQUOTE :: lit "hello" ++ [DQUOTE])) =
  Some [mkToken (lit "String") (DQUOTE :: lit "hello" ++ [DQUOTE])].
Proof. vm_compute. reflexivity. Qed.

Example scan_block_comment :
  option_map (fun la => (tokens la, line_no la))
    (tokenize init_lexical_analyzer (lit "/* a" ++ NL :: lit "b */ x")) =
  Some ([mkToken (lit "Identifier") (lit "x")], 2).
Proof. vm_compute. reflexivity. Qed.

(** The character classes are the ranges of the identifier grammar
    [[A-Za-z_][A-Za-z0-9_]*]. *)
Lemma is_letter_range (c : ascii) :
  is_letter c = true <->
  (ord "A" <= ord c <= ord "Z") \/ (ord "a" <= ord c <= ord "z").
Proof.
  destruct c as [[] [] [] [] [] [] [] []]; vm_compute;
    split; intros H; try reflexivity; try discriminate H;
    first [ left; split; discriminate
          | right; split; discriminate
          | exfalso; destruct H as [[H1 H2]|[H1 H2]];
            first [ apply H1; reflexivity | apply H2; reflexivity ] ].
Qed.

Lemma is_digit_range (c : ascii) :
  is_digit c = true <-> ord "0" <= ord c <= ord "9".
Proof.
  unfold is_digit. rewrite andb_true_iff, !Z.leb_le. reflexivity.
Qed.

(** ** C1: termination and the final cursor *)

Lemma tokenize_init_returns (code : cstr) :
  exists la', tokenize init_lexical_analyzer code = Some la'.
Proof.
  destruct (tokenize_invariant code (fun _ => True) init_lexical_analyzer)
    as (la' & H & _); auto; [repeat split|].
  exists la'. exact H.
Qed.




(** ** C4, C5: operators *)

Lemma char_at_strlen (code : cstr) : char_at code (strlen code) = NUL.
Proof.
  unfold char_at, strlen.
  replace (Z.of_nat (strlen_nat code) <? 0) with false by (symmetry; apply Z.ltb_ge; lia).
  rewrite Nat2Z.id.
  induction code as [|c r IH]; [reflexivity|].
  cbn [strlen_nat]. destruct (Ascii.eqb c NUL) eqn:E.
  - apply Ascii.eqb_eq in E. exact E.
  - exact IH.
Qed.

Lemma char_at_not_NUL (code : cstr) (i : Z) :
  0 <= i < strlen code -> char_at code i <> NUL.
Proof.
  unfold char_at, strlen. intros [H0 H1].
  replace (i <? 0) with false by (symmetry; apply Z.ltb_ge; lia).
  assert (Hn : (Z.to_nat i < strlen_nat code)%nat) by lia.
  clear H0 H1. revert Hn. generalize (Z.to_nat i) as n.
  induction code as [|c r IH]; intros n Hn; cbn [strlen_nat] in Hn; [lia|].
  destruct (Ascii.eqb c NUL) eqn:E; [lia|].
  destruct n as [|n]; cbn [nth].
  - intros ->. discriminate.
  - apply IH. lia.
Qed.

Lemma in_operators_arr_second (a b : ascii) :
  In [a; b] operators_arr -> b <> NUL.
Proof.
  intros H ->. revert H. cbv [operators_arr map lit list_ascii_of_string In].
  intuition discriminate.
Qed.

Lemma is_in_operators_iff la op :
  initialized la -> (is_in_operators la op = true <-> In op operators_arr).
Proof.
  intros (_ & Ho & _). unfold is_in_operators. rewrite Ho.
  apply existsb_cstr_eqb.
Qed.

(** The operator characters are none of the classes tested before them in
    the driving loop. *)
Lemma operator_char_class (c : ascii) :
  In c (lit "+-*/%=<>!&|^~") ->
  is_whitespace c = false /\ lexeme_start c = false /\
  Ascii.eqb c DQUOTE = false /\ Ascii.eqb c SQUOTE = false /\
  strchr (lit "+-*/%=<>!&|^~") c = true.
Proof.
  cbv [lit list_ascii_of_string In].
  intros H; repeat (destruct H as [<-|H]; [repeat split|]); contradiction.
Qed.

(** C4: operator matching is maximal munch with a lookahead of one.  When the
    two-character window at the cursor is in the operator set, [read_operator]
    returns that window as one Operator token and moves the cursor one extra
    position; otherwise it returns the single character and leaves the cursor.
    The driving loop emits exactly that token for an operator character that
    does not open a comment.  The input [a == b] gives one Operator token
    [==] between the two identifiers. *)
Theorem read_operator_maximal_munch :
  (forall la code,
     initialized la ->
     0 <= current_pos la < strlen code ->
     let c0 := char_at code (current_pos la) in
     let c1 := char_at code (current_pos la + 1) in
     (In [c0; c1] operators_arr ->
      read_operator la code =
      (mkToken (lit "Operator") [c0; c1], set_current_pos la (current_pos la + 1))) /\
     (~ In [c0; c1] operators_arr ->
      read_operator la code = (mkToken (lit "Operator") [c0], la)) /\
     (In c0 (lit "+-*/%=<>!&|^~") ->
      ~ (c0 = "/"%char /\ (c1 = "/"%char \/ c1 = "*"%char)) ->
      tokenize_step la code =
      set_current_pos (push_token (snd (read_operator la code)) (fst (read_operator la code)))
        (current_pos (snd (read_operator la code)) + 1)))
  /\
  option_map tokens (tokenize init_lexical_analyzer (lit "a == b")) =
  Some [mkToken (lit "Identifier") (lit "a");
        mkToken (lit "Operator") (lit "==");
        mkToken (lit "Identifier") (lit "b")].
Proof.
  split; [|reflexivity].
  intros la code Hi Hp c0 c1. split; [|split].
  - intros Hin. unfold read_operator. fold c0 c1.
    assert (Hlt : current_pos la + 1 < strlen code).
    { destruct (Z.eq_dec (current_pos la + 1) (strlen code)) as [E|E]; [|lia].
      exfalso. apply (in_operators_arr_second _ _ Hin).
      subst c1. rewrite E. apply char_at_strlen. }
    apply Z.ltb_lt in Hlt. rewrite Hlt.
    apply (is_in_operators_iff la _ Hi) in Hin. rewrite Hin. reflexivity.
  - intros Hn. unfold read_operator. fold c0 c1.
    destruct (current_pos la + 1 <? strlen code); [|reflexivity].
    destruct (is_in_operators la [c0; c1]) eqn:E; [|reflexivity].
    apply (is_in_operators_iff la _ Hi) in E. contradiction.
  - intros Hop Hnc.
    destruct (operator_char_class c0 Hop) as (Hw & Hl & Hd & Hs & Hc).
    unfold tokenize_step. fold c0 c1. rewrite Hw.
    unfold lexeme_start in Hl. rewrite Hl, Hd, Hs.
    destruct Hi as (_ & _ & _ & Ho). rewrite Ho.
    change (operator_chars init_lexical_analyzer) with (lit "+-*/%=<>!&|^~").
    rewrite Hc.
    replace (Ascii.eqb c0 "/" && (current_pos la + 1 <? strlen code)
             && (Ascii.eqb c1 "/" || Ascii.eqb c1 "*")) with false.
    + destruct (read_operator la code). reflexivity.
    + symmetry. apply not_true_is_false. intros H.
      rewrite !andb_true_iff, orb_true_iff, !Ascii.eqb_eq in H. tauto.
Qed.

Lemma read_operator_maximal_munch_witness :
  let la := set_current_pos init_lexical_analyzer 2 in
  let code := lit "a == b" in
  read_operator la code =
  (mkToken (lit "Operator") (lit "=="), set_current_pos la 3) /\
  tokenize_step la code =
  set_current_pos (push_token (set_current_pos la 3) (mkToken (lit "Operator") (lit "=="))) 4.
Proof.
  intros la code.
  assert (Hi : initialized la) by (repeat split).
  assert (Hp : 0 <= current_pos la < strlen code) by (cbv; split; congruence).
  destruct (proj1 read_operator_maximal_munch la code Hi Hp) as (H2 & _ & Hs).
  assert (E : read_operator la code =
              (mkToken (lit "Operator") (lit "=="), set_current_pos la 3)).
  { apply H2. cbv. tauto. }
  split; [exact E|].
  rewrite Hs.
  - rewrite E. reflexivity.
  - cbv. tauto.
  - cbv. intros [H _]. discriminate H.
Defined.

Lemma tokenize_step_short_operators la code :
  Forall short_operator (tokens la) ->
  Forall short_operator (tokens (tokenize_step la code)).
Proof.
  intros H. step_cases; try assumption;
    (apply Forall_app; split; [assumption|]);
    (constructor; [|constructor]); intros E; cbn in *;
    try (vm_compute in E; discriminate E); auto.
Qed.

(** C5: no Operator token of a scan has a text of three characters (its text
    has one or two), so the entries [>>=] and [<<=] of the operator set are
    never produced; and as [>>] is not in the set, the input [>>] gives the
    two tokens [>] and [>]. *)
Theorem operator_tokens_at_most_two :
  (forall la code,
     initialized la ->
     exists la', tokenize la code = Some la' /\
       forall t, In t (tokens la') -> type t = lit "Operator" ->
         List.length (value t) <> 3%nat /\
         (List.length (value t) = 1 \/ List.length (value t) = 2)%nat /\
         value t <> lit ">>=" /\ value t <> lit "<<=")
  /\
  (In (lit ">>=") operators_arr /\ In (lit "<<=") operators_arr /\
   ~ In (lit ">>") operators_arr /\ ~ In (lit "<<") operators_arr)
  /\
  option_map tokens (tokenize init_lexical_analyzer (lit ">>")) =
  Some [mkToken (lit "Operator") (lit ">"); mkToken (lit "Operator") (lit ">")].
Proof.
  split; [|split; [|reflexivity]];
    [| cbv [operators_arr map lit list_ascii_of_string In];
       repeat split; try tauto; intuition discriminate].
  intros la code Hi.
  destruct (tokenize_invariant code (fun s => Forall short_operator (tokens s)) la Hi)
    as (la' & Ht & _ & HI & _).
  - constructor.
  - intros s _ _. apply tokenize_step_short_operators.
  - exists la'. split; [assumption|].
    intros t Hin Hty. rewrite Forall_forall in HI.
    specialize (HI t Hin Hty).
    repeat split; try assumption; try lia;
      intros E; rewrite E in HI; cbn in HI; lia.
Qed.

Lemma operator_tokens_at_most_two_witness :
  exists la', tokenize init_lexical_analyzer (lit "a >>= b <<= c") = Some la' /\
    forall t, In t (tokens la') -> type t = lit "Operator" ->
      List.length (value t) <> 3%nat /\
      (List.length (value t) = 1 \/ List.length (value t) = 2)%nat /\
      value t <> lit ">>=" /\ value t <> lit "<<=".
Proof.
  apply (proj1 operator_tokens_at_most_two init_lexical_analyzer).
  repeat split.
Defined.

(** ** C10: the newline that ends a line comment *)

Lemma skip_line_loop_spec fuel code len pos :
  len - pos <= Z.of_nat fuel ->
  let r := skip_line_loop fuel code len pos in
  (r < len -> char_at code r = NL) /\
  (forall q, pos <= q < r -> char_at code q <> NL).
Proof.
  revert pos. induction fuel as [|f IH]; intros pos Hf; cbn [skip_line_loop].
  - split; intros; lia.
  - destruct (pos <? len) eqn:Hlt; cbn [andb].
    + destruct (Ascii.eqb (char_at code pos) NL) eqn:E; cbn [negb].
      * apply Ascii.eqb_eq in E. split; [intros; assumption | intros; lia].
      * apply Ascii.eqb_neq in E.
        destruct (IH (pos + 1)) as [H1 H2]; [lia|].
        split; [exact H1|].
        intros q Hq. destruct (Z.eq_dec q pos) as [->|Hne]; [exact E|].
        apply H2. lia.
    + apply Z.ltb_ge in Hlt. split; intros; lia.
Qed.

(** C10: on a [//] comment the skipper stops on the terminating newline (or
    at the end of input) and the driving loop steps past that position outside
    its whitespace branch, so the line counter and the tokens are unchanged;
    after a scan the line counter can therefore be less than one plus the
    number of newlines of the input, as on a comment line followed by
    [int y;]. *)
Theorem line_comment_newline_not_counted :
  (forall la code,
     current_pos la + 1 < strlen code ->
     char_at code (current_pos la) = "/"%char ->
     char_at code (current_pos la + 1) = "/"%char ->
     let q := line_end la code in
     current_pos (skip_comment la code) = q /\
     (q < strlen code -> char_at code q = NL) /\
     (forall i, current_pos la <= i < q -> char_at code i <> NL) /\
     current_pos (tokenize_step la code) = q + 1 /\
     line_no (tokenize_step la code) = line_no la /\
     tokens (tokenize_step la code) = tokens la)
  /\
  (let code := lit "// c" ++ NL :: lit "int y;" in
   count_newlines code = 1 /\
   option_map line_no (tokenize init_lexical_analyzer code) = Some 1)
  /\
  (exists code la', tokenize init_lexical_analyzer code = Some la' /\
                    line_no la' < 1 + count_newlines code).
Proof.
  split; [|split; [split; vm_compute; reflexivity|]].
  2: { assert (H : option_map line_no
                     (tokenize init_lexical_analyzer (lit "// c" ++ NL :: lit "int y;"))
                   = Some 1) by (vm_compute; reflexivity).
       destruct (tokenize init_lexical_analyzer (lit "// c" ++ NL :: lit "int y;"))
         as [la'|] eqn:E; [|discriminate H].
       exists (lit "// c" ++ NL :: lit "int y;"), la'.
       split; [exact E|]. injection H as ->. vm_compute. reflexivity. }
  intros la code Hlen H0 H1 q.
  assert (Hsk : skip_comment la code = set_current_pos la q).
  { rewrite skip_comment_eq. rewrite H0, H1.
    replace (current_pos la + 1 <? strlen code) with true
      by (symmetry; apply Z.ltb_lt; lia).
    reflexivity. }
  destruct (skip_line_loop_spec (Z.to_nat (strlen code - current_pos la)) code
              (strlen code) (current_pos la)) as [Hq1 Hq2]; [lia|].
  assert (Hst : tokenize_step la code = set_current_pos (set_current_pos la q) (q + 1)).
  { unfold tokenize_step. rewrite H0, H1, Hsk.
    replace (current_pos la + 1 <? strlen code) with true
      by (symmetry; apply Z.ltb_lt; lia).
    reflexivity. }
  rewrite Hsk, Hst. cbn.
  repeat split; auto.
Qed.

Lemma line_comment_newline_not_counted_witness :
  let la := init_lexical_analyzer in
  let code := lit "// c" ++ NL :: lit "int y;" in
  current_pos (skip_comment la code) = 4 /\
  char_at code 4 = NL /\
  current_pos (tokenize_step la code) = 5 /\
  line_no (tokenize_step la code) = 1.
Proof.
  intros la code.
  destruct (proj1 line_comment_newline_not_counted la code)
    as (H1 & H2 & _ & H3 & H4 & _);
    try reflexivity; try (cbv; congruence).
  split; [exact H1|].
  split; [apply H2; reflexivity|].
  split; [exact H3 | exact H4].
Defined.

(** ** The lexeme reader reads the maximal run, cut at 255 characters *)

Lemma is_delim_NUL : is_delim NUL = true.
Proof. reflexivity. Qed.

Lemma skipn_char_at (code : cstr) (pos : Z) :
  0 <= pos ->
  (skipn (Z.to_nat pos) code = [] /\ char_at code pos = NUL) \/
  skipn (Z.to_nat pos) code = char_at code pos :: skipn (Z.to_nat (pos + 1)) code.
Proof.
  intros Hp. unfold char_at.
  replace (pos <? 0) with false by (symmetry; apply Z.ltb_ge; lia).
  replace (Z.to_nat (pos + 1)) with (S (Z.to_nat pos)) by lia.
  generalize (Z.to_nat pos) as n. clear Hp.
  induction code as [|c r IH]; intros n.
  - left. destruct n; split; reflexivity.
  - destruct n as [|n].
    + right. reflexivity.
    + cbn [skipn nth]. apply IH.
Qed.

Lemma run_at_unfold (code : cstr) (pos : Z) :
  0 <= pos ->
  run_at code pos =
  if is_delim (char_at code pos) then [] else char_at code pos :: run_at code (pos + 1).
Proof.
  intros Hp. unfold run_at.
  destruct (skipn_char_at code pos Hp) as [[E1 E2]|E].
  - rewrite E1, E2. reflexivity.
  - rewrite E. reflexivity.
Qed.

Lemma firstn_app_exact {A} (n : nat) (l1 l2 : list A) :
  List.length l1 = n -> firstn n (l1 ++ l2) = l1.
Proof.
  intros <-. rewrite firstn_app, Nat.sub_diag, firstn_all. cbn.
  apply app_nil_r.
Qed.

Lemma run_nil_result (lexeme : cstr) (pos : Z) :
  (List.length lexeme <= 255)%nat ->
  (lexeme, pos) =
  (firstn 255 (lexeme ++ []), pos + Z.of_nat (List.length (@nil ascii))).
Proof.
  intros H. rewrite app_nil_r, firstn_all2 by lia. f_equal.
  change (Z.of_nat (List.length (@nil ascii))) with 0. lia.
Qed.

Lemma read_lexeme_loop_run fuel la code lexeme pos :
  initialized la ->
  0 <= pos <= strlen code ->
  strlen code - pos <= Z.of_nat fuel ->
  (List.length lexeme <= 255)%nat ->
  read_lexeme_loop fuel la code (strlen code) lexeme pos =
  (firstn 255 (lexeme ++ run_at code pos),
   pos + Z.of_nat (List.length (run_at code pos))).
Proof.
  intros Hi. revert lexeme pos.
  induction fuel as [|f IH]; intros lexeme pos Hp Hf Hl.
  - assert (pos = strlen code) as -> by lia.
    rewrite run_at_unfold, char_at_strlen, is_delim_NUL by lia.
    cbn [read_lexeme_loop]. apply run_nil_result. assumption.
  - rewrite read_lexeme_loop_S by assumption.
    rewrite (run_at_unfold code pos) by lia.
    destruct (pos <? strlen code) eqn:Hlt.
    + apply Z.ltb_lt in Hlt. cbn [andb].
      destruct (is_delim (char_at code pos)) eqn:Hd; cbn [negb].
      * apply run_nil_result. assumption.
      * rewrite IH; [| lia | lia |].
        -- f_equal; [| cbn [List.length]; lia].
           destruct (Z.of_nat (List.length lexeme) <? 255) eqn:Hc.
           ++ rewrite <- app_assoc. reflexivity.
           ++ apply Z.ltb_ge in Hc.
              rewrite !firstn_app_exact by lia. reflexivity.
        -- destruct (Z.of_nat (List.length lexeme) <? 255) eqn:Hc; [|exact Hl].
           apply Z.ltb_lt in Hc. rewrite length_app. cbn. lia.
    + apply Z.ltb_ge in Hlt. assert (pos = strlen code) as -> by lia.
      rewrite char_at_strlen, is_delim_NUL.
      cbn [andb]. apply run_nil_result. assumption.
Qed.

Lemma lexeme_of_run la code :
  initialized la ->
  0 <= current_pos la <= strlen code ->
  lexeme_of la code = firstn 255 (run_at code (current_pos la)) /\
  lexeme_end la code = current_pos la + Z.of_nat (List.length (run_at code (current_pos la))).
Proof.
  intros Hi Hp. unfold lexeme_of, lexeme_end.
  rewrite read_lexeme_loop_run; try assumption; try lia; [|cbn; lia].
  split; reflexivity.
Qed.

Lemma take_run_all (s r : cstr) :
  forallb (fun c => negb (is_delim c)) s = true ->
  take_run (s ++ r) = s ++ take_run r.
Proof.
  induction s as [|c s IH]; cbn; [reflexivity|].
  rewrite andb_true_iff, negb_true_iff. intros [-> H].
  rewrite IH by assumption. reflexivity.
Qed.

Lemma strlen_no_delim (s : cstr) :
  forallb (fun c => negb (is_delim c)) s = true ->
  strlen s = Z.of_nat (List.length s).
Proof.
  unfold strlen. intros H. f_equal.
  induction s as [|c s IH]; cbn in *; [reflexivity|].
  rewrite andb_true_iff, negb_true_iff in H. destruct H as [Hc H].
  destruct (Ascii.eqb c NUL) eqn:E.
  - apply Ascii.eqb_eq in E. subst. discriminate Hc.
  - rewrite IH by assumption. reflexivity.
Qed.

(** ** Unfolding the driving loop *)

Lemma tokenize_loop_unfold f la code :
  current_pos la < strlen code ->
  tokenize_loop (S f) la code = tokenize_loop f (tokenize_step la code) code.
Proof.
  intros H. cbn [tokenize_loop]. apply Z.ltb_lt in H. rewrite H. reflexivity.
Qed.

Lemma tokenize_loop_done f la code :
  strlen code <= current_pos la -> tokenize_loop f la code = Some la.
Proof.
  intros H. apply Z.ltb_ge in H. destruct f; cbn [tokenize_loop]; rewrite H; reflexivity.
Qed.

Lemma lexeme_start_class (c : ascii) :
  lexeme_start c = true -> is_whitespace c = false /\ Ascii.eqb c "/" = false.
Proof.
  destruct c as [[] [] [] [] [] [] [] []]; vm_compute; intuition congruence.
Qed.

Lemma tokenize_step_lexeme la code :
  lexeme_start (char_at code (current_pos la)) = true ->
  tokenize_step la code =
  set_current_pos
    (if 0 <? strlen (type (fst (read_lexeme la code)))
     then push_token (snd (read_lexeme la code)) (fst (read_lexeme la code))
     else snd (read_lexeme la code))
    (current_pos (snd (read_lexeme la code)) + 1).
Proof.
  intros Hs. destruct (lexeme_start_class _ Hs) as [Hw Hc].
  unfold tokenize_step. rewrite Hw, Hc. cbn [andb].
  unfold lexeme_start in Hs. rewrite Hs.
  destruct (read_lexeme la code) as [t l]. cbn [fst snd].
  destruct (0 <? strlen (type t)); reflexivity.
Qed.

Lemma is_in_keywords_iff la lexeme :
  initialized la -> (is_in_keywords la lexeme = true <-> In lexeme keywords_arr).
Proof.
  intros (Hk & _). unfold is_in_keywords. rewrite Hk. apply existsb_cstr_eqb.
Qed.

(** The error list and the symbol table only grow at the end. *)
Lemma tokenize_step_errors_extend la code :
  exists more, lexical_errors (tokenize_step la code) = lexical_errors la ++ more.
Proof.
  step_cases;
    solve [ exists []; symmetry; apply app_nil_r | eexists; reflexivity ].
Qed.

Lemma tokenize_step_symbols_extend la code :
  exists more, symbol_table (tokenize_step la code) = symbol_table la ++ more.
Proof.
  step_cases;
    solve [ exists []; symmetry; apply app_nil_r | eexists; reflexivity ].
Qed.

(** ** C7: invalid lexemes *)

(** C7, as amended: a malformed alphanumeric run of at most 255 characters (a
    run started by a letter, a digit or an underscore that is not a keyword,
    not a well-formed identifier and not a parseable number, such as [1a2b])
    produces no token and appends exactly one entry, the text of the run, to
    the error list; the scan goes on from the end of the run and finishes with
    that entry in its error list. *)
Theorem invalid_lexeme_recorded :
  (forall la code,
     initialized la ->
     0 <= current_pos la < strlen code ->
     lexeme_start (char_at code (current_pos la)) = true ->
     let run := run_at code (current_pos la) in
     (List.length run <= 255)%nat ->
     ~ In run keywords_arr ->
     is_identifier run = false ->
     is_number run = false ->
     tokens (tokenize_step la code) = tokens la /\
     lexical_errors (tokenize_step la code) = lexical_errors la ++ [run] /\
     symbol_table (tokenize_step la code) = symbol_table la /\
     current_pos (tokenize_step la code) = current_pos la + Z.of_nat (List.length run) /\
     exists la' more,
       tokenize_loop (Z.to_nat (strlen code - current_pos la)) la code = Some la' /\
       lexical_errors la' = lexical_errors la ++ run :: more)
  /\
  option_map (fun la => (tokens la, lexical_errors la))
    (tokenize init_lexical_analyzer (lit "1a2b")) = Some ([], [lit "1a2b"])
  /\
  option_map (fun la => (tokens la, lexical_errors la))
    (tokenize init_lexical_analyzer (lit "1a2b x;")) =
  Some ([mkToken (lit "Identifier") (lit "x"); mkToken (lit "Punctuation") (lit ";")],
        [lit "1a2b"]).
Proof.
  split; [|split; reflexivity].
  intros la code Hi Hp Hs run Hlen Hkw Hid Hnum.
  destruct (lexeme_of_run la code Hi) as [Hlex Hend]; [lia|].
  fold run in Hlex, Hend. rewrite firstn_all2 in Hlex by lia.
  assert (Hne : run <> []).
  { unfold run. rewrite run_at_unfold by lia.
    rewrite (lexeme_start_not_delim _ Hs). discriminate. }
  assert (Hrd : read_lexeme la code =
                (empty_token,
                 push_lexical_error (set_current_pos la (lexeme_end la code - 1)) run)).
  { rewrite read_lexeme_eq. cbv zeta. rewrite Hlex.
    destruct (is_in_keywords la run) eqn:Ek.
    - apply (is_in_keywords_iff la run Hi) in Ek. contradiction.
    - destruct run as [|c r]; [contradiction|]. rewrite Hid, Hnum. reflexivity. }
  assert (Hst : tokenize_step la code =
                set_current_pos
                  (push_lexical_error (set_current_pos la (lexeme_end la code - 1)) run)
                  (lexeme_end la code)).
  { rewrite tokenize_step_lexeme by assumption. rewrite Hrd. cbn.
    f_equal. lia. }
  rewrite Hst. cbn -[Z.add Z.sub].
  split; [reflexivity|]. split; [reflexivity|]. split; [reflexivity|].
  split; [exact Hend|].
  destruct (Z.to_nat (strlen code - current_pos la)) as [|f] eqn:Hf; [lia|].
  rewrite tokenize_loop_unfold by lia.
  pose proof (tokenize_step_progress la code Hi Hp) as Hpr.
  destruct (tokenize_loop_invariant code
              (fun s => exists more, lexical_errors s = lexical_errors la ++ run :: more))
    with (fuel := f) (la := tokenize_step la code)
    as (la' & Hl & _ & [more Hm] & _).
  - intros s _ _ [more Hm].
    destruct (tokenize_step_errors_extend s code) as [more' Hm'].
    exists (more ++ more'). rewrite Hm', Hm, <- app_assoc. reflexivity.
  - apply initialized_step. assumption.
  - lia.
  - lia.
  - exists []. rewrite Hst. reflexivity.
  - exists la', more. split; assumption.
Qed.

Lemma invalid_lexeme_recorded_witness :
  let la := init_lexical_analyzer in
  let code := lit "1a2b x;" in
  tokens (tokenize_step la code) = [] /\
  lexical_errors (tokenize_step la code) = [lit "1a2b"] /\
  symbol_table (tokenize_step la code) = [] /\
  current_pos (tokenize_step la code) = 4 /\
  exists la' more,
    tokenize_loop 7 la code = Some la' /\ lexical_errors la' = lit "1a2b" :: more.
Proof.
  intros la code.
  apply (proj1 invalid_lexeme_recorded la code).
  - repeat split.
  - cbv. split; congruence.
  - reflexivity.
  - cbv. lia.
  - cbv. intuition discriminate.
  - reflexivity.
  - reflexivity.
Defined.

(** C7, as stated, fails on a longer run: the 256 characters made of 255
    digits [1] and a letter [a] are not a number, yet the reader keeps only
    the first 255 characters, which are one, emits a Constant token and
    records no error. *)
Lemma invalid_lexeme_cut_to_constant :
  let code := repeat "1"%char 255 ++ lit "a" in
  run_at code 0 = code /\
  lexeme_start (char_at code 0) = true /\
  ~ In code keywords_arr /\
  is_identifier code = false /\
  is_number code = false /\
  option_map (fun la => (tokens la, lexical_errors la))
    (tokenize init_lexical_analyzer code) =
  Some ([mkToken (lit "Constant") (repeat "1"%char 255)], []).
Proof.
  intros code. repeat split; try (vm_compute; reflexivity).
  intros H. vm_compute in H. intuition discriminate.
Qed.

(** ** C2: numeric literals *)

Lemma keyword_not_digit_first (s : cstr) :
  In s keywords_arr -> is_digit (nth 0 s NUL) = false.
Proof.
  cbv [keywords_arr map lit list_ascii_of_string In].
  intros H; repeat (destruct H as [<-|H]; [reflexivity|]); contradiction.
Qed.

Lemma digit_not_identifier_first (c : ascii) :
  is_digit c = true -> is_letter c || Ascii.eqb c "_" = false.
Proof.
  destruct c as [[] [] [] [] [] [] [] []]; vm_compute; congruence.
Qed.

Lemma is_number_not_identifier (s : cstr) :
  is_number s = true -> is_identifier s = false.
Proof.
  unfold is_number, is_identifier. rewrite andb_true_iff. intros [Hd _].
  destruct s as [|c r]; [reflexivity|]. cbn [nth] in Hd.
  rewrite (digit_not_identifier_first c Hd). reflexivity.
Qed.

Lemma run_at_whole (s : cstr) :
  forallb (fun c => negb (is_delim c)) s = true -> run_at s 0 = s.
Proof.
  intros H. unfold run_at. cbn [Z.to_nat skipn].
  rewrite <- (app_nil_r s) at 1. rewrite take_run_all by assumption.
  cbn. apply app_nil_r.
Qed.

(** C2, as amended: every numeric literal of at most 255 characters that
    holds no whitespace, operator or punctuation character (so no [.] and no
    sign) and that the numeric parser accepts in full after a leading digit,
    scanned as the whole input, yields exactly one token, of kind Constant,
    whose text is the literal. *)
Theorem constant_literal_single_token (la : LexicalAnalyzer) (s : cstr) :
  initialized la ->
  is_number s = true ->
  forallb (fun c => negb (is_delim c)) s = true ->
  (List.length s <= 255)%nat ->
  exists la', tokenize la s = Some la' /\
              tokens la' = [mkToken (lit "Constant") s].
Proof.
  intros Hi Hnum Hnd Hlen.
  pose proof (strlen_no_delim s Hnd) as Hsl.
  assert (Hd : is_digit (nth 0 s NUL) = true).
  { unfold is_number in Hnum. apply andb_true_iff in Hnum. apply Hnum. }
  destruct s as [|c r] eqn:Es; [discriminate Hd|]. rewrite <- Es in *.
  assert (Hc : char_at s 0 = c) by (rewrite Es; reflexivity).
  set (la0 := set_current_pos (set_tokens la []) 0).
  assert (Hi0 : initialized la0) by exact Hi.
  assert (Hs : lexeme_start (char_at s (current_pos la0)) = true).
  { change (current_pos la0) with 0. rewrite Hc. unfold lexeme_start.
    rewrite Es in Hd. cbn [nth] in Hd. rewrite Hd. apply orb_true_r. }
  destruct (lexeme_of_run la0 s Hi0) as [Hlex Hend].
  { change (current_pos la0) with 0. rewrite Hsl. lia. }
  change (current_pos la0) with 0 in Hlex, Hend.
  rewrite (run_at_whole s Hnd) in Hlex, Hend.
  rewrite firstn_all2 in Hlex by lia.
  assert (Hrd : read_lexeme la0 s =
                (mkToken (lit "Constant") s, set_current_pos la0 (lexeme_end la0 s - 1))).
  { rewrite read_lexeme_eq. cbv zeta. rewrite Hlex.
    destruct (is_in_keywords la0 s) eqn:Ek.
    - apply (is_in_keywords_iff la0 s Hi0) in Ek.
      rewrite (keyword_not_digit_first s Ek) in Hd. discriminate Hd.
    - rewrite (is_number_not_identifier s Hnum), Hnum. rewrite Es. reflexivity. }
  exists (set_current_pos
            (push_token (set_current_pos la0 (lexeme_end la0 s - 1))
               (mkToken (lit "Constant") s))
            (lexeme_end la0 s)).
  split; [|reflexivity].
  unfold tokenize. fold la0.
  destruct (Z.to_nat (strlen s)) as [|f] eqn:Hf.
  { rewrite Hsl, Es in Hf. cbn [List.length] in Hf. lia. }
  rewrite tokenize_loop_unfold.
  - rewrite tokenize_step_lexeme by assumption. rewrite Hrd.
    cbn [fst snd type]. change (0 <? strlen (lit "Constant")) with true. cbv iota.
    replace (current_pos (set_current_pos la0 (lexeme_end la0 s - 1)) + 1)
      with (lexeme_end la0 s) by (cbn; lia).
    apply tokenize_loop_done. cbn. lia.
  - change (current_pos la0) with 0. rewrite Hsl, Es. cbn [List.length]. lia.
Qed.

Lemma constant_literal_single_token_witness :
  exists la', tokenize init_lexical_analyzer (lit "6e23") = Some la' /\
              tokens la' = [mkToken (lit "Constant") (lit "6e23")].
Proof.
  apply (constant_literal_single_token init_lexical_analyzer (lit "6e23")).
  - repeat split.
  - reflexivity.
  - reflexivity.
  - cbv. lia.
Defined.

(** C2, as stated, fails: the literal [3.14] is split at the dot, which is a
    punctuation character, into three tokens. *)
Lemma floating_literal_split_at_dot :
  option_map tokens (tokenize init_lexical_analyzer (lit "3.14")) =
  Some [mkToken (lit "Constant") (lit "3");
        mkToken (lit "Punctuation") (lit ".");
        mkToken (lit "Constant") (lit "14")].
Proof. reflexivity. Qed.

(** Every non-empty sequence of decimal digits is such a literal. *)
Lemma span_all (p : ascii -> bool) (s : cstr) :
  forallb p s = true -> span p s = List.length s.
Proof.
  induction s as [|c s IH]; cbn; [reflexivity|].
  rewrite andb_true_iff. intros [-> H]. rewrite IH by assumption. reflexivity.
Qed.

Lemma mantissa_len_all (p : ascii -> bool) (s : cstr) :
  forallb p s = true -> mantissa_len p s = List.length s.
Proof.
  intros H. unfold mantissa_len. rewrite (span_all _ _ H), skipn_all. reflexivity.
Qed.

Lemma digit_not_hex_marker (x : ascii) :
  is_digit x = true -> (ord "x" =? tolower (ord x)) = false.
Proof.
  destruct x as [[] [] [] [] [] [] [] []]; vm_compute; congruence.
Qed.

Lemma digits_is_number (s : cstr) :
  s <> [] -> forallb is_digit s = true ->
  is_number s = true /\ forallb (fun c => negb (is_delim c)) s = true.
Proof.
  intros Hne Hd. split.
  - destruct s as [|c r]; [contradiction|].
    pose proof Hd as Hd'. cbn [forallb] in Hd'. apply andb_true_iff in Hd'.
    destruct Hd' as [Hc Hr].
    assert (Hsp : isspace c = false /\ is_sign c = false /\ Ascii.eqb c "." = false).
    { revert Hc. clear. destruct c as [[] [] [] [] [] [] [] []]; vm_compute;
        intuition congruence. }
    destruct Hsp as (Hsp & Hsg & Hdot).
    assert (Hend : strtod_endptr (c :: r) = List.length (c :: r)).
    { unfold strtod_endptr. cbn [span]. rewrite Hsp. cbn [skipn sign_len].
      rewrite Hsg. cbn [skipn Nat.add].
      assert (Hhex : hex_len (c :: r) = O).
      { unfold hex_len. destruct r as [|x r'].
        - clear. destruct c as [[] [] [] [] [] [] [] []]; reflexivity.
        - cbn [forallb] in Hr. apply andb_true_iff in Hr. destruct Hr as [Hx _].
          rewrite (digit_not_hex_marker x Hx).
          clear. destruct c as [[] [] [] [] [] [] [] []]; reflexivity. }
      rewrite Hhex. cbn [Nat.eqb].
      assert (Hdec : dec_len (c :: r) = List.length (c :: r)).
      { unfold dec_len. rewrite (mantissa_len_all _ _ Hd), skipn_all.
        cbn [List.length Nat.eqb exponent_len]. lia. }
      rewrite Hdec. cbn [List.length Nat.eqb]. reflexivity. }
    unfold is_number. rewrite Hend.
    rewrite (nth_overflow (c :: r) NUL (le_n (List.length (c :: r)))).
    cbn [nth]. rewrite Hc. reflexivity.
  - clear Hne. induction s as [|c s IH]; [reflexivity|].
    cbn [forallb] in *. apply andb_true_iff in Hd. destruct Hd as [Hc Hs].
    rewrite (is_digit_not_delim c Hc), IH by assumption. reflexivity.
Qed.

(** ** The symbol table after one iteration *)

Lemma tokenize_step_symbols la code :
  symbol_table (tokenize_step la code) = symbol_table la \/
  (lexeme_start (char_at code (current_pos la)) = true /\
   is_identifier (lexeme_of la code) = true /\
   ~ followed_by_paren la code /\
   ~ In (lexeme_of la code) (symbol_table la) /\
   symbol_table (tokenize_step la code) = symbol_table la ++ [lexeme_of la code]).
Proof.
  unfold followed_by_paren, lexeme_start.
  step_cases; try (left; reflexivity).
  all: right; repeat split; auto.
  all: try (apply Ascii.eqb_neq; assumption).
  all: intros Hin; apply existsb_cstr_eqb in Hin; cbn in *; congruence.
Qed.

Lemma tokenize_step_records_identifier la code :
  initialized la ->
  lexeme_start (char_at code (current_pos la)) = true ->
  is_identifier (lexeme_of la code) = true ->
  ~ In (lexeme_of la code) keywords_arr ->
  ~ followed_by_paren la code ->
  In (lexeme_of la code) (symbol_table (tokenize_step la code)).
Proof.
  intros Hi Hs Hid Hkw Hnp.
  rewrite tokenize_step_lexeme by assumption. rewrite read_lexeme_eq. cbv zeta.
  destruct (is_in_keywords la (lexeme_of la code)) eqn:Ek.
  { apply (is_in_keywords_iff la _ Hi) in Ek. contradiction. }
  destruct (lexeme_of la code) as [|c r] eqn:El; [discriminate Hid|].
  rewrite Hid.
  unfold followed_by_paren in Hnp.
  destruct (Ascii.eqb (peek_next_non_whitespace
                         (set_current_pos la (lexeme_end la code - 1)) code) "(") eqn:Ep.
  { apply Ascii.eqb_eq in Ep. contradiction. }
  cbn [fst snd type]. change (0 <? strlen (lit "Identifier")) with true. cbv iota.
  unfold push_symbol.
  destruct (existsb _ _) eqn:Ex; cbn.
  - apply existsb_cstr_eqb in Ex. exact Ex.
  - apply in_or_app. right. left. reflexivity.
Qed.

Lemma tokenize_step_paren_keeps_symbols la code :
  lexeme_start (char_at code (current_pos la)) = true ->
  followed_by_paren la code ->
  symbol_table (tokenize_step la code) = symbol_table la.
Proof.
  intros Hs Hp. destruct (tokenize_step_symbols la code) as [E|(_ & _ & Hn & _)].
  - exact E.
  - contradiction.
Qed.

Lemma tokenize_step_symbols_NoDup la code :
  NoDup (symbol_table la) -> NoDup (symbol_table (tokenize_step la code)).
Proof.
  intros H. destruct (tokenize_step_symbols la code) as [E|(_ & _ & _ & Hn & E)];
    rewrite E; [exact H|].
  apply NoDup_app; [exact H | repeat constructor; intros [] | ].
  intros x Hx [<-|[]]. contradiction.
Qed.

(** ** The states of a scan *)

Section ScanStates.

Variables (la : LexicalAnalyzer) (code : cstr).
Hypothesis Hinit : initialized la.

Lemma scan_state_initialized n : initialized (scan_state la code n).
Proof.
  induction n as [|n IH]; cbn [scan_state]; [exact Hinit|].
  unfold tokenize_next. destruct (_ <? _); [apply initialized_step|]; assumption.
Qed.

Lemma scan_state_stuck n k :
  strlen code <= current_pos (scan_state la code n) ->
  scan_state la code (n + k) = scan_state la code n.
Proof.
  intros H. induction k as [|k IH].
  - rewrite Nat.add_0_r. reflexivity.
  - rewrite Nat.add_succ_r. cbn [scan_state]. rewrite IH.
    unfold tokenize_next. apply Z.ltb_ge in H. rewrite H. reflexivity.
Qed.

(** The result of [tokenize] is a state of the scan, and every property
    kept by the iterations holds of it. *)
Lemma tokenize_scan_invariant (I : LexicalAnalyzer -> Prop) :
  I (set_current_pos (set_tokens la []) 0) ->
  (forall n, let s := scan_state la code n in
             current_pos s < strlen code -> I s -> I (tokenize_step s code)) ->
  exists la' n, tokenize la code = Some la' /\ la' = scan_state la code n /\
                I la' /\ strlen code <= current_pos la'.
Proof.
  intros H0 Hstep.
  destruct (tokenize_invariant code
              (fun s => (exists n, s = scan_state la code n) /\ I s) la Hinit)
    as (la' & Ht & _ & [[n Hn] HI] & Hend).
  - split; [exists O; reflexivity | exact H0].
  - intros s _ Hp [[n Hn] HI]. split.
    + exists (S n). cbn [scan_state]. rewrite <- Hn. unfold tokenize_next.
      replace (current_pos s <? strlen code) with true
        by (symmetry; apply Z.ltb_lt; lia).
      reflexivity.
    + subst s. apply Hstep; [lia | exact HI].
  - exists la', n. auto.
Qed.

Lemma scan_state_symbols_mono n k x :
  In x (symbol_table (scan_state la code n)) ->
  In x (symbol_table (scan_state la code (n + k))).
Proof.
  intros H. induction k as [|k IH].
  - rewrite Nat.add_0_r. exact H.
  - rewrite Nat.add_succ_r. cbn [scan_state]. unfold tokenize_next.
    destruct (_ <? _); [|exact IH].
    destruct (tokenize_step_symbols_extend (scan_state la code (n + k)) code)
      as [more E].
    rewrite E. apply in_or_app. left. exact IH.
Qed.

Lemma scan_state_symbols_NoDup n :
  NoDup (symbol_table la) -> NoDup (symbol_table (scan_state la code n)).
Proof.
  intros H. induction n as [|n IH]; cbn [scan_state]; [exact H|].
  unfold tokenize_next. destruct (_ <? _); [|exact IH].
  apply tokenize_step_symbols_NoDup. exact IH.
Qed.

(** One occurrence without a following [(] is enough to record a lexeme. *)
Lemma identifier_recorded identifier n :
  is_identifier identifier = true ->
  ~ In identifier keywords_arr ->
  reads_lexeme la code n identifier ->
  ~ followed_by_paren (scan_state la code n) code ->
  exists la' m, tokenize la code = Some la' /\ la' = scan_state la code m /\
                In identifier (symbol_table la').
Proof.
  intros Hid Hkw (Hpos & Hst & Hlex) Hnp.
  destruct (tokenize_scan_invariant (fun _ => True))
    as (la' & m & Ht & Hm & _ & Hend); auto.
  exists la', m. split; [exact Ht|]. split; [exact Hm|].
  assert (Hrec : In identifier (symbol_table (scan_state la code (S n)))).
  { cbn [scan_state]. unfold tokenize_next.
    replace (_ <? _) with true by (symmetry; apply Z.ltb_lt; exact Hpos).
    rewrite <- Hlex. apply tokenize_step_records_identifier.
    - apply scan_state_initialized.
    - exact Hst.
    - rewrite Hlex. exact Hid.
    - rewrite Hlex. exact Hkw.
    - exact Hnp. }
  destruct (Nat.le_gt_cases (S n) m) as [Hle|Hgt].
  - rewrite Hm. replace m with (S n + (m - S n))%nat by lia.
    apply scan_state_symbols_mono. exact Hrec.
  - exfalso. rewrite Hm in Hend.
    pose proof (scan_state_stuck m (n - m) Hend) as Hs.
    replace (m + (n - m))%nat with n in Hs by lia.
    rewrite Hs in Hpos. lia.
Qed.

End ScanStates.

(** ** C8: unterminated literals *)





Lemma scan_state_pos_nonneg la code n :
  initialized la -> 0 <= current_pos (scan_state la code n).
Proof.
  intros Hi. induction n as [|n IH]; cbn [scan_state]; [cbn; lia|].
  unfold tokenize_next.
  destruct (current_pos (scan_state la code n) <? strlen code) eqn:E; [|exact IH].
  apply Z.ltb_lt in E.
  pose proof (tokenize_step_progress (scan_state la code n) code
                (scan_state_initialized la code Hi n) (conj IH E)).
  lia.
Qed.





(** ** C3: function names *)

(** C3, as amended: an occurrence of an identifier whose next non-whitespace
    character is [(] adds nothing to the symbol table, and an identifier that
    is followed by [(] at every one of its occurrences is absent from the
    final symbol table (of a scan that starts without it).  An occurrence
    elsewhere without a following [(] does record it: an identifier that is
    not a keyword and that the scan reads once without a following [(] is in
    the final symbol table, whatever follows its other occurrences. *)
Theorem function_name_not_recorded :
  (forall la code,
     lexeme_start (char_at code (current_pos la)) = true ->
     followed_by_paren la code ->
     symbol_table (tokenize_step la code) = symbol_table la)
  /\
  (forall la code identifier,
     initialized la ->
     ~ In identifier (symbol_table la) ->
     (forall n, reads_lexeme la code n identifier ->
                followed_by_paren (scan_state la code n) code) ->
     exists la', tokenize la code = Some la' /\ ~ In identifier (symbol_table la'))
  /\
  (forall la code identifier n,
     initialized la ->
     is_identifier identifier = true ->
     ~ In identifier keywords_arr ->
     reads_lexeme la code n identifier ->
     ~ followed_by_paren (scan_state la code n) code ->
     exists la', tokenize la code = Some la' /\ In identifier (symbol_table la')).
Proof.
  split; [exact tokenize_step_paren_keeps_symbols|]. split.
  - intros la code identifier Hi Hnin Hall.
    destruct (tokenize_scan_invariant la code Hi
                (fun s => ~ In identifier (symbol_table s)))
      as (la' & n & Ht & _ & HI & _).
    + exact Hnin.
    + intros n s Hp HI.
      destruct (tokenize_step_symbols s code) as [E|(Hs & _ & Hnp & _ & E)].
      * rewrite E. exact HI.
      * rewrite E. intros Hin. apply in_app_or in Hin. destruct Hin as [Hin|Hin].
        -- exact (HI Hin).
        -- destruct Hin as [Hin|[]]. apply Hnp. apply Hall.
           repeat split; assumption.
    + exists la'. split; assumption.
  - intros la code identifier n Hi Hid Hkw Hn Hnp.
    destruct (identifier_recorded la code Hi identifier n Hid Hkw Hn Hnp)
      as (la' & m & Ht & _ & Hin).
    exists la'. split; assumption.
Qed.

(** Settles one concrete iteration of a scan by evaluation. *)
Ltac scan_case H1 H2 :=
  first [ vm_compute; reflexivity
        | exfalso; vm_compute in H1; discriminate H1
        | exfalso; vm_compute in H2; discriminate H2 ].

Lemma function_name_not_recorded_witness :
  let code := lit "f (1)" in
  let code' := lit "f = 1; f(2);" in
  symbol_table (tokenize_step init_lexical_analyzer code) = [] /\
  (exists la', tokenize init_lexical_analyzer code = Some la' /\
               ~ In (lit "f") (symbol_table la')) /\
  (exists la', tokenize init_lexical_analyzer code' = Some la' /\
               In (lit "f") (symbol_table la')).
Proof.
  intros code code'.
  destruct function_name_not_recorded as (Hstep & Habsent & Hrecorded).
  split; [|split].
  - apply (Hstep init_lexical_analyzer code); vm_compute; reflexivity.
  - apply (Habsent init_lexical_analyzer code (lit "f")).
    + repeat split.
    + intros [].
    + intros n (Hpos & Hst & Hlex).
      do 5 (destruct n as [|n]; [scan_case Hst Hlex|]).
      exfalso. change (S (S (S (S (S n))))) with (5 + n)%nat in Hpos.
      rewrite scan_state_stuck in Hpos by (vm_compute; congruence).
      vm_compute in Hpos. discriminate Hpos.
  - apply (Hrecorded init_lexical_analyzer code' (lit "f") O).
    + repeat split.
    + reflexivity.
    + cbv. intuition discriminate.
    + split; [vm_compute; reflexivity|]. split; vm_compute; reflexivity.
    + intros Hp. vm_compute in Hp. discriminate Hp.
Defined.

(** C3, as stated, fails: in [f = 1; f(2);] the first occurrence of [f] is
    followed by [=] and records it, although the second is followed by [(]. *)
Lemma function_name_recorded_elsewhere :
  let code := lit "f = 1; f(2);" in
  reads_lexeme init_lexical_analyzer code 7 (lit "f") /\
  followed_by_paren (scan_state init_lexical_analyzer code 7) code /\
  option_map symbol_table (tokenize init_lexical_analyzer code) = Some [lit "f"].
Proof.
  intros code. split; [|split]; try (vm_compute; reflexivity).
  split; [vm_compute; reflexivity|]. split; vm_compute; reflexivity.
Qed.

(** ** C6: the symbol table *)

(** C6, as amended: every lexeme that the scanner reads as an identifier (a
    maximal run of at most 255 characters, or the first 255 characters of a
    longer run) matching [[A-Za-z_][A-Za-z0-9_]*], that is not a keyword and
    is never followed, after whitespace, by [(], appears exactly once in the
    symbol table however many times it occurs; and the symbol table never
    holds a duplicate. *)
Theorem identifier_recorded_once (la : LexicalAnalyzer) (code identifier : cstr) :
  initialized la ->
  NoDup (symbol_table la) ->
  is_identifier identifier = true ->
  ~ In identifier keywords_arr ->
  (exists n, reads_lexeme la code n identifier) ->
  (forall n, reads_lexeme la code n identifier ->
             ~ followed_by_paren (scan_state la code n) code) ->
  (forall n, NoDup (symbol_table (scan_state la code n))) /\
  exists la', tokenize la code = Some la' /\
              count_occ cstr_eq_dec (symbol_table la') identifier = 1%nat /\
              NoDup (symbol_table la').
Proof.
  intros Hi Hnd Hid Hkw [n Hn] Hall.
  split; [intros k; apply scan_state_symbols_NoDup; exact Hnd|].
  destruct (identifier_recorded la code Hi identifier n Hid Hkw Hn (Hall n Hn))
    as (la' & m & Ht & Hm & Hin).
  assert (Hnd' : NoDup (symbol_table la'))
    by (rewrite Hm; apply scan_state_symbols_NoDup; exact Hnd).
  exists la'. split; [exact Ht|]. split; [|exact Hnd'].
  pose proof (proj1 (NoDup_count_occ cstr_eq_dec (symbol_table la')) Hnd' identifier).
  pose proof (proj1 (count_occ_In cstr_eq_dec (symbol_table la') identifier) Hin).
  lia.
Qed.

Lemma identifier_recorded_once_witness :
  exists la', tokenize init_lexical_analyzer (lit "x = x + x;") = Some la' /\
              count_occ cstr_eq_dec (symbol_table la') (lit "x") = 1%nat /\
              NoDup (symbol_table la').
Proof.
  apply (identifier_recorded_once init_lexical_analyzer (lit "x = x + x;") (lit "x")).
  - repeat split.
  - constructor.
  - reflexivity.
  - cbv. intuition discriminate.
  - exists O. split; [vm_compute; reflexivity|]. split; vm_compute; reflexivity.
  - intros n (Hpos & Hst & Hlex) Hp.
    do 10 (destruct n as [|n]; [scan_case Hst Hp|]).
    change (S (S (S (S (S (S (S (S (S (S n)))))))))) with (10 + n)%nat in Hpos.
    rewrite scan_state_stuck in Hpos by (vm_compute; congruence).
    vm_compute in Hpos. discriminate Hpos.
Defined.

(** C6, as stated, fails on a long identifier: of 256 letters [a] the symbol
    table holds the first 255, not the identifier. *)
Lemma long_identifier_not_recorded :
  let identifier := repeat "a"%char 256 in
  is_identifier identifier = true /\
  ~ In identifier keywords_arr /\
  run_at identifier 0 = identifier /\
  option_map symbol_table (tokenize init_lexical_analyzer identifier) =
    Some [repeat "a"%char 255] /\
  count_occ cstr_eq_dec [repeat "a"%char 255] identifier = 0%nat.
Proof.
  intros identifier.
  split; [vm_compute; reflexivity|].
  split; [intros H; vm_compute in H; intuition discriminate|].
  split; [vm_compute; reflexivity|].
  split; vm_compute; reflexivity.
Qed.

(** ** C9: a second scan on the same analyzer *)

(** The readers look only at the tables and the cursor. *)
Lemma read_lexeme_loop_congr f a b code len lexeme pos :
  same_tables a b ->
  read_lexeme_loop f a code len lexeme pos = read_lexeme_loop f b code len lexeme pos.
Proof.
  intros (_ & _ & Hp & Ho). revert lexeme pos.
  induction f as [|f IH]; intros lexeme pos; cbn [read_lexeme_loop]; [reflexivity|].
  rewrite Hp, Ho. destruct (_ && _); [apply IH | reflexivity].
Qed.

Lemma lexeme_of_congr a b code :
  same_tables a b -> current_pos a = current_pos b ->
  lexeme_of a code = lexeme_of b code /\ lexeme_end a code = lexeme_end b code.
Proof.
  intros Ht Hp. unfold lexeme_of, lexeme_end.
  rewrite Hp, (read_lexeme_loop_congr _ a b) by assumption. split; reflexivity.
Qed.

Lemma quoted_congr a b code quote :
  current_pos a = current_pos b ->
  quoted_text a code quote = quoted_text b code quote /\
  quoted_end a code quote = quoted_end b code quote.
Proof.
  intros Hp. unfold quoted_text, quoted_end. rewrite Hp. split; reflexivity.
Qed.

Lemma line_end_congr a b code :
  current_pos a = current_pos b -> line_end a code = line_end b code.
Proof. intros Hp. unfold line_end. rewrite Hp. reflexivity. Qed.

Lemma skip_block_loop_shift f code len pos line d :
  skip_block_loop f code len pos (d + line) =
  (fst (skip_block_loop f code len pos line),
   d + snd (skip_block_loop f code len pos line)).
Proof.
  revert pos line. induction f as [|f IH]; intros pos line; cbn [skip_block_loop].
  - reflexivity.
  - destruct (pos <? len - 1); [|reflexivity].
    destruct (Ascii.eqb (char_at code pos) NL);
      destruct (_ && _); cbn [fst snd];
      try (rewrite <- IH; f_equal; lia); f_equal; lia.
Qed.

Lemma block_end_congr a b code d :
  current_pos a = current_pos b -> line_no a = d + line_no b ->
  fst (block_end a code) = fst (block_end b code) /\
  snd (block_end a code) = d + snd (block_end b code).
Proof.
  intros Hp Hl. unfold block_end. rewrite Hp, Hl, skip_block_loop_shift.
  split; reflexivity.
Qed.

Lemma peek_congr a b code p :
  peek_next_non_whitespace (set_current_pos a p) code =
  peek_next_non_whitespace (set_current_pos b p) code.
Proof. reflexivity. Qed.

Lemma not_in_false_iff T x : not_in T x = false <-> In x T.
Proof.
  unfold not_in. rewrite negb_false_iff. apply existsb_cstr_eqb.
Qed.

Lemma push_symbol_accumulates T a b x :
  symbol_table a = T ++ filter (not_in T) (symbol_table b) ->
  symbol_table (push_symbol a x) =
  T ++ filter (not_in T) (symbol_table (push_symbol b x)).
Proof.
  intros H. unfold push_symbol.
  destruct (existsb _ (symbol_table a)) eqn:Ea;
    destruct (existsb _ (symbol_table b)) eqn:Eb; cbn [symbol_table set_symbol_table].
  - exact H.
  - apply existsb_cstr_eqb in Ea. rewrite H in Ea.
    rewrite filter_app. cbn [filter].
    destruct (not_in T x) eqn:En.
    + exfalso. apply in_app_or in Ea. destruct Ea as [Ea|Ea].
      * apply not_in_false_iff in Ea. congruence.
      * apply filter_In in Ea. destruct Ea as [Ea _].
        apply existsb_cstr_eqb in Ea. congruence.
    + rewrite app_nil_r. exact H.
  - exfalso. apply existsb_cstr_eqb in Eb.
    assert (Hin : In x (symbol_table a)).
    { rewrite H. apply in_or_app. destruct (not_in T x) eqn:En.
      - right. apply filter_In. split; assumption.
      - left. apply not_in_false_iff. exact En. }
    apply existsb_cstr_eqb in Hin. congruence.
  - rewrite filter_app. cbn [filter].
    destruct (not_in T x) eqn:En.
    + rewrite H, <- app_assoc. reflexivity.
    + exfalso. apply not_in_false_iff in En.
      assert (Hin : In x (symbol_table a)) by (rewrite H; apply in_or_app; left; exact En).
      apply existsb_cstr_eqb in Hin. congruence.
Qed.
Lemma push_symbol_keywords la x : keywords (push_symbol la x) = keywords la.
Proof. unfold push_symbol. destruct (existsb _ _); reflexivity. Qed.

Lemma push_symbol_operators la x : operators (push_symbol la x) = operators la.
Proof. unfold push_symbol. destruct (existsb _ _); reflexivity. Qed.

Lemma push_symbol_punctuation la x : punctuation (push_symbol la x) = punctuation la.
Proof. unfold push_symbol. destruct (existsb _ _); reflexivity. Qed.

Lemma push_symbol_operator_chars la x :
  operator_chars (push_symbol la x) = operator_chars la.
Proof. unfold push_symbol. destruct (existsb _ _); reflexivity. Qed.

Lemma push_symbol_lexical_errors la x :
  lexical_errors (push_symbol la x) = lexical_errors la.
Proof. unfold push_symbol. destruct (existsb _ _); reflexivity. Qed.

Lemma push_symbol_tokens la x : tokens (push_symbol la x) = tokens la.
Proof. unfold push_symbol. destruct (existsb _ _); reflexivity. Qed.

Lemma push_symbol_current_pos la x : current_pos (push_symbol la x) = current_pos la.
Proof. unfold push_symbol. destruct (existsb _ _); reflexivity. Qed.

Lemma push_symbol_line_no la x : line_no (push_symbol la x) = line_no la.
Proof. unfold push_symbol. destruct (existsb _ _); reflexivity. Qed.

Create Rewrite HintDb push_symbol_frame.

#[local] Hint Rewrite push_symbol_keywords push_symbol_operators
  push_symbol_punctuation push_symbol_operator_chars push_symbol_lexical_errors
  push_symbol_tokens push_symbol_current_pos push_symbol_line_no : push_symbol_frame.

(** One iteration keeps the relation between the two analyzers. *)
Lemma tokenize_step_accumulates T E d a b code :
  accumulates T E d a b ->
  accumulates T E d (tokenize_step a code) (tokenize_step b code).
Proof.
  intros (Ht & Hpos & Htok & Herr & Hline & Hsym).
  destruct (lexeme_of_congr a b code Ht Hpos) as [HL HE].
  destruct (quoted_congr a b code DQUOTE Hpos) as [HD1 HD2].
  destruct (quoted_congr a b code SQUOTE Hpos) as [HS1 HS2].
  pose proof (line_end_congr a b code Hpos) as HLe.
  destruct (block_end_congr a b code d Hpos Hline) as [HB1 HB2].
  destruct Ht as (Hk & Ho & Hp & Hc).
  unfold tokenize_step.
  rewrite !read_lexeme_eq, !read_string_eq, !read_character_eq, !skip_comment_eq.
  unfold read_operator, is_in_keywords, is_in_operators. cbv zeta.
  rewrite HL, HE, HD1, HD2, HS1, HS2, HLe, HB1, HB2, Hpos, Hk, Ho, Hp, Hc.
  rewrite (peek_congr a b).
  repeat break_if.
  all: unfold accumulates, same_tables.
  all: cbn [keywords operators punctuation operator_chars symbol_table
            lexical_errors tokens current_pos line_no
            set_current_pos set_line_no set_tokens set_symbol_table
            set_lexical_errors push_token push_lexical_error fst snd].
  all: autorewrite with push_symbol_frame.
  all: cbn [keywords operators punctuation operator_chars symbol_table
            lexical_errors tokens current_pos line_no set_current_pos].
  all: repeat split; try assumption; try congruence; try lia.
  all: try (rewrite Herr, <- app_assoc; reflexivity).
  all: apply push_symbol_accumulates; exact Hsym.
Qed.

Lemma tokenize_loop_accumulates T E d code fuel a b b' :
  accumulates T E d a b ->
  tokenize_loop fuel b code = Some b' ->
  exists a', tokenize_loop fuel a code = Some a' /\ accumulates T E d a' b'.
Proof.
  revert a b. induction fuel as [|f IH]; intros a b Hacc Hb;
    cbn [tokenize_loop] in *;
    pose proof Hacc as (_ & Hpos & _); rewrite Hpos;
    destruct (current_pos b <? strlen code).
  - discriminate Hb.
  - injection Hb as <-. exists a. split; [reflexivity | exact Hacc].
  - apply (IH _ (tokenize_step b code)); [|exact Hb].
    apply tokenize_step_accumulates. exact Hacc.
  - injection Hb as <-. exists a. split; [reflexivity | exact Hacc].
Qed.

Lemma tokenize_accumulates la code :
  initialized la ->
  exists la' fresh,
    tokenize la code = Some la' /\
    tokenize init_lexical_analyzer code = Some fresh /\
    accumulates (symbol_table la) (lexical_errors la) (line_no la - 1) la' fresh.
Proof.
  intros Hi.
  destruct (tokenize_init_returns code) as (fresh & Hf).
  destruct (tokenize_loop_accumulates (symbol_table la) (lexical_errors la)
              (line_no la - 1) code (Z.to_nat (strlen code))
              (set_current_pos (set_tokens la []) 0)
              (set_current_pos (set_tokens init_lexical_analyzer []) 0) fresh)
    as (la' & Hl & Hacc).
  - unfold accumulates. cbn.
    split; [exact Hi|]. repeat split; try lia.
    + symmetry. apply app_nil_r.
    + symmetry. apply app_nil_r.
  - exact Hf.
  - exists la', fresh. auto.
Qed.

(** A second scan, run: the tokens are those of the second input alone, the
    identifier and the error of the first input are still there, and the line
    counter has counted the newline of the first input. *)
Example second_scan_example :
  match tokenize init_lexical_analyzer (lit "a 1x" ++ [NL]) with
  | Some la1 =>
      option_map
        (fun la2 => (tokens la2, symbol_table la2, lexical_errors la2, line_no la2))
        (tokenize la1 (lit "b 2y a" ++ [NL]))
  | None => None
  end =
  Some ([mkToken (lit "Identifier") (lit "b"); mkToken (lit "Identifier") (lit "a")],
        [lit "a"; lit "b"], [lit "1x"; lit "2y"], 3).
Proof. vm_compute. reflexivity. Qed.

(** C9: a call of [tokenize] on an analyzer that already holds symbols,
    errors and a line count resets only the token sequence and the cursor.
    Its tokens and final cursor are those of a scan of the same input by a
    fresh analyzer; the symbol table, the error list and the line counter are
    carried over: the errors of the input are appended to the earlier ones,
    its new identifiers are appended to the symbol table, and the line counter
    goes on from its earlier value.  This holds of any analyzer with the
    tables of the program, so of the analyzer left by a first scan; and run
    on [a 1x] then [b 2y a], one line each, the second scan leaves the tokens
    [b] and [a], the symbols [a] and [b], the errors [1x] and [2y] and the
    line counter at 3. *)
Theorem second_scan_accumulates :
  (forall la code,
     initialized la ->
     exists la' fresh,
       tokenize la code = Some la' /\
       tokenize init_lexical_analyzer code = Some fresh /\
       tokens la' = tokens fresh /\
       current_pos la' = current_pos fresh /\
       lexical_errors la' = lexical_errors la ++ lexical_errors fresh /\
       symbol_table la' =
         symbol_table la ++ filter (not_in (symbol_table la)) (symbol_table fresh) /\
       line_no la' = line_no la + (line_no fresh - 1))
  /\
  (forall code1 code2,
     exists la1 la2 fresh,
       tokenize init_lexical_analyzer code1 = Some la1 /\
       tokenize la1 code2 = Some la2 /\
       tokenize init_lexical_analyzer code2 = Some fresh /\
       tokens la2 = tokens fresh /\
       current_pos la2 = current_pos fresh /\
       lexical_errors la2 = lexical_errors la1 ++ lexical_errors fresh /\
       symbol_table la2 =
         symbol_table la1 ++ filter (not_in (symbol_table la1)) (symbol_table fresh) /\
       line_no la2 = line_no la1 + (line_no fresh - 1))
  /\
  match tokenize init_lexical_analyzer (lit "a 1x" ++ [NL]) with
  | Some la1 =>
      option_map
        (fun la2 => (tokens la2, symbol_table la2, lexical_errors la2, line_no la2))
        (tokenize la1 (lit "b 2y a" ++ [NL]))
  | None => None
  end =
  Some ([mkToken (lit "Identifier") (lit "b"); mkToken (lit "Identifier") (lit "a")],
        [lit "a"; lit "b"], [lit "1x"; lit "2y"], 3).
Proof.
  assert (Hany : forall la code,
             initialized la ->
             exists la' fresh,
               tokenize la code = Some la' /\
               tokenize init_lexical_analyzer code = Some fresh /\
               tokens la' = tokens fresh /\
               current_pos la' = current_pos fresh /\
               lexical_errors la' = lexical_errors la ++ lexical_errors fresh /\
               symbol_table la' =
                 symbol_table la
                 ++ filter (not_in (symbol_table la)) (symbol_table fresh) /\
               line_no la' = line_no la + (line_no fresh - 1)).
  { intros la code Hi.
    destruct (tokenize_accumulates la code Hi)
      as (la' & fresh & H2 & Hf & _ & Hpos & Htok & Herr & Hline & Hsym).
    exists la', fresh.
    split; [exact H2|]. split; [exact Hf|]. split; [exact Htok|].
    split; [exact Hpos|]. split; [exact Herr|]. split; [exact Hsym | lia]. }
  split; [exact Hany|]. split; [|exact second_scan_example].
  intros code1 code2.
  destruct (tokenize_invariant code1 (fun _ => True) init_lexical_analyzer)
    as (la1 & H1 & Hi1 & _); auto; [repeat split|].
  destruct (Hany la1 code2 Hi1) as (la2 & fresh & H).
  exists la1, la2, fresh. split; [exact H1 | exact H].
Qed.

Lemma second_scan_accumulates_witness :
  let la := set_line_no (push_lexical_error (push_symbol init_lexical_analyzer (lit "a"))
                           (lit "1x")) 2 in
  let code := lit "b 2y a" ++ [NL] in
  initialized la /\
  exists la' fresh,
    tokenize la code = Some la' /\
    tokenize init_lexical_analyzer code = Some fresh /\
    tokens la' = tokens fresh /\
    current_pos la' = current_pos fresh /\
    lexical_errors la' = [lit "1x"] ++ lexical_errors fresh /\
    symbol_table la' = [lit "a"] ++ filter (not_in [lit "a"]) (symbol_table fresh) /\
    line_no la' = 2 + (line_no fresh - 1).
Proof.
  intros la code.
  assert (H : initialized la) by (repeat split).
  split; [exact H|].
  exact (proj1 second_scan_accumulates la code H).
Defined.

(** * Further properties of the code *)

(** ** The order given by [strcmp] *)

Lemma ord_inj (x y : ascii) : ord x = ord y -> x = y.
Proof.
  unfold ord. intros H. apply Nat2Z.inj in H.
  rewrite <- (ascii_nat_embedding x), <- (ascii_nat_embedding y), H. reflexivity.
Qed.

Lemma strcmp_refl (a : cstr) : strcmp a a = 0.
Proof.
  induction a as [|x a IH]; cbn [strcmp]; [reflexivity|].
  rewrite Z.eqb_refl. exact IH.
Qed.

Lemma strcmp_eq (a b : cstr) : strcmp a b = 0 -> a = b.
Proof.
  revert b. induction a as [|x a IH]; intros [|y b]; cbn [strcmp];
    try reflexivity; try discriminate.
  destruct (ord x =? ord y) eqn:E.
  - apply Z.eqb_eq, ord_inj in E. intros H. rewrite (IH b H), E. reflexivity.
  - apply Z.eqb_neq in E. lia.
Qed.

Lemma strcmp_flip (a b : cstr) : 0 < strcmp a b <-> strcmp b a < 0.
Proof.
  revert b. induction a as [|x a IH]; intros [|y b]; cbn [strcmp]; try lia.
  rewrite (Z.eqb_sym (ord y) (ord x)).
  destruct (ord x =? ord y); [apply IH | lia].
Qed.

Lemma cstr_le_total (a b : cstr) : cstr_le a b \/ cstr_le b a.
Proof.
  unfold cstr_le. destruct (Z_le_gt_dec (strcmp a b) 0) as [H|H]; [left; exact H|].
  right. assert (0 < strcmp a b) as H' by lia. apply strcmp_flip in H'. lia.
Qed.

Lemma cstr_le_trans (a b c : cstr) : cstr_le a b -> cstr_le b c -> cstr_le a c.
Proof.
  unfold cstr_le. revert b c.
  induction a as [|x a IH]; intros [|y b] [|z c]; cbn [strcmp]; try lia.
  destruct (ord x =? ord y) eqn:Exy; destruct (ord y =? ord z) eqn:Eyz;
    destruct (ord x =? ord z) eqn:Exz;
    repeat match goal with
           | H : (_ =? _) = true |- _ => apply Z.eqb_eq in H
           | H : (_ =? _) = false |- _ => apply Z.eqb_neq in H
           end; try lia.
  apply IH.
Qed.

Lemma cstr_le_antisym (a b : cstr) : cstr_le a b -> cstr_le b a -> a = b.
Proof.
  unfold cstr_le. intros H1 H2. apply strcmp_eq.
  destruct (Z.eq_dec (strcmp a b) 0) as [E|E]; [exact E|].
  assert (strcmp a b < 0) as H by lia.
  apply strcmp_flip in H. lia.
Qed.

(** ** The sort of [analyze] *)

Lemma upd_middle {A} (l1 l2 : list A) (a b : A) :
  upd (l1 ++ a :: l2) (List.length l1) b = l1 ++ b :: l2.
Proof.
  induction l1 as [|x l1 IH]; cbn [upd List.length app]; [reflexivity|].
  rewrite IH. reflexivity.
Qed.

Lemma select_min_spec (x : cstr) (rest : list cstr) :
  Permutation (x :: rest) (fst (select_min x rest) :: snd (select_min x rest)) /\
  cstr_le (fst (select_min x rest)) x /\
  Forall (cstr_le (fst (select_min x rest))) (snd (select_min x rest)) /\
  List.length (snd (select_min x rest)) = List.length rest.
Proof.
  revert x. induction rest as [|y r IH]; intros x; cbn [select_min].
  - cbn [fst snd]. repeat split; auto. unfold cstr_le. rewrite strcmp_refl. lia.
  - destruct (strcmp x y >? 0) eqn:E; cbn [fst snd].
    + destruct (IH y) as (Hp & Hle & Hall & Hlen).
      assert (Hyx : cstr_le y x).
      { unfold cstr_le. apply Z.gtb_lt in E. apply strcmp_flip in E. lia. }
      repeat split.
      * apply perm_trans with (x :: fst (select_min y r) :: snd (select_min y r));
          [apply perm_skip; exact Hp | apply perm_swap].
      * exact (cstr_le_trans _ _ _ Hle Hyx).
      * constructor; [exact (cstr_le_trans _ _ _ Hle Hyx) | exact Hall].
      * cbn [List.length]. rewrite Hlen. reflexivity.
    + destruct (IH x) as (Hp & Hle & Hall & Hlen).
      assert (Hxy : cstr_le x y).
      { unfold cstr_le. destruct (Z.gtb_spec (strcmp x y) 0); [discriminate | lia]. }
      repeat split.
      * apply perm_trans with (y :: x :: r); [apply perm_swap|].
        apply perm_trans with (y :: fst (select_min x r) :: snd (select_min x r));
          [apply perm_skip; exact Hp | apply perm_swap].
      * exact Hle.
      * constructor; [exact (cstr_le_trans _ _ _ Hle Hxy) | exact Hall].
      * cbn [List.length]. rewrite Hlen. reflexivity.
Qed.

(** The inner loop, on the array [pre ++ x :: mid ++ rest] with [i] at [x]
    and [j] at the head of [rest]. *)
Lemma sort_inner_select (rest : list cstr) :
  forall fuel pre x mid,
    (List.length rest <= fuel)%nat ->
    sort_inner fuel (pre ++ x :: mid ++ rest)
      (Z.of_nat (List.length (pre ++ x :: mid ++ rest)))
      (Z.of_nat (List.length pre))
      (Z.of_nat (List.length pre + 1 + List.length mid)) =
    pre ++ fst (select_min x rest) :: mid ++ snd (select_min x rest).
Proof.
  induction rest as [|y r IH]; intros fuel pre x mid Hf.
  - cbn [select_min fst snd]. destruct fuel as [|f]; cbn [sort_inner]; [reflexivity|].
    replace (_ <? _) with false; [reflexivity|].
    symmetry. apply Z.ltb_ge. rewrite !length_app. cbn [List.length].
    rewrite length_app. cbn [List.length]. lia.
  - destruct fuel as [|f]; [cbn in Hf; lia|]. cbn [sort_inner].
    replace (_ <? _) with true.
    2:{ symmetry. apply Z.ltb_lt. rewrite !length_app. cbn [List.length].
        rewrite length_app. cbn [List.length]. lia. }
    rewrite !Nat2Z.id.
    assert (Hi : nth (List.length pre) (pre ++ x :: mid ++ y :: r) [] = x)
      by apply nth_middle.
    assert (Hj : nth (List.length pre + 1 + List.length mid)
                   (pre ++ x :: mid ++ y :: r) [] = y).
    { replace (pre ++ x :: mid ++ y :: r) with ((pre ++ x :: mid) ++ y :: r)
        by (rewrite <- app_assoc; reflexivity).
      replace (List.length pre + 1 + List.length mid)%nat
        with (List.length (pre ++ x :: mid))
        by (rewrite length_app; cbn [List.length]; lia).
      apply nth_middle. }
    rewrite Hi, Hj. cbn [select_min].
    destruct (strcmp x y >? 0) eqn:E; cbn [fst snd].
    + assert (Hsw : swap_entries (pre ++ x :: mid ++ y :: r)
                      (Z.of_nat (List.length pre))
                      (Z.of_nat (List.length pre + 1 + List.length mid)) =
                    pre ++ y :: mid ++ x :: r).
      { unfold swap_entries. rewrite !Nat2Z.id, Hi, Hj, upd_middle.
        replace (pre ++ y :: mid ++ y :: r) with ((pre ++ y :: mid) ++ y :: r)
          by (rewrite <- app_assoc; reflexivity).
        replace (List.length pre + 1 + List.length mid)%nat
          with (List.length (pre ++ y :: mid))
          by (rewrite length_app; cbn [List.length]; lia).
        rewrite upd_middle, <- !app_assoc. reflexivity. }
      rewrite Hsw.
      pose proof (IH f pre y (mid ++ [x])) as H.
      rewrite <- !app_assoc in H. cbn [app] in H.
      replace (Z.of_nat (List.length pre + 1 + List.length (mid ++ [x])))
        with (Z.of_nat (List.length pre + 1 + List.length mid) + 1) in H
        by (rewrite length_app; cbn [List.length]; lia).
      replace (List.length (pre ++ x :: mid ++ y :: r))
        with (List.length (pre ++ y :: mid ++ x :: r))
        by (rewrite !length_app; cbn [List.length]; rewrite !length_app;
            cbn [List.length]; lia).
      apply H. cbn in Hf. lia.
    + pose proof (IH f pre x (mid ++ [y])) as H.
      rewrite <- !app_assoc in H. cbn [app] in H.
      replace (Z.of_nat (List.length pre + 1 + List.length (mid ++ [y])))
        with (Z.of_nat (List.length pre + 1 + List.length mid) + 1) in H
        by (rewrite length_app; cbn [List.length]; lia).
      apply H. cbn in Hf. lia.
Qed.

Lemma sort_outer_sorted :
  forall fuel pre l,
    (List.length l <= fuel)%nat ->
    exists l',
      sort_outer fuel (pre ++ l) (Z.of_nat (List.length (pre ++ l)))
        (Z.of_nat (List.length pre)) = pre ++ l' /\
      Permutation l l' /\ StronglySorted cstr_le l'.
Proof.
  induction fuel as [|f IH]; intros pre l Hf.
  - destruct l; [|cbn in Hf; lia]. exists []. cbn [sort_outer].
    repeat split; constructor.
  - cbn [sort_outer]. destruct l as [|x [|y r]].
    + exists []. replace (_ <? _) with false
        by (symmetry; apply Z.ltb_ge; rewrite length_app; cbn; lia).
      repeat split; constructor.
    + exists [x]. replace (_ <? _) with false
        by (symmetry; apply Z.ltb_ge; rewrite length_app; cbn; lia).
      repeat split; auto. repeat constructor.
    + replace (_ <? _) with true
        by (symmetry; apply Z.ltb_lt; rewrite length_app; cbn [List.length]; lia).
      pose proof (sort_inner_select (y :: r)
                    (Z.to_nat (Z.of_nat (List.length (pre ++ x :: y :: r))
                               - (Z.of_nat (List.length pre) + 1)))
                    pre x []) as Hin.
      cbn [app] in Hin. rewrite Nat.add_0_r in Hin.
      replace (Z.of_nat (List.length pre + 1)) with (Z.of_nat (List.length pre) + 1)
        in Hin by lia.
      rewrite Hin by (rewrite length_app; cbn [List.length]; lia).
      destruct (select_min_spec x (y :: r)) as (Hp & Hle & Hall & Hlen).
      set (m := fst (select_min x (y :: r))) in *.
      set (r' := snd (select_min x (y :: r))) in *.
      destruct (IH (pre ++ [m]) r') as (l' & Hs & Hp' & Hsorted).
      { rewrite Hlen. cbn in Hf. cbn. lia. }
      exists (m :: l').
      replace (pre ++ m :: r') with ((pre ++ [m]) ++ r')
        by (rewrite <- app_assoc; reflexivity).
      replace (Z.of_nat (List.length (pre ++ x :: y :: r)))
        with (Z.of_nat (List.length ((pre ++ [m]) ++ r')))
        by (rewrite !length_app, Hlen; cbn [List.length]; lia).
      replace (Z.of_nat (List.length pre) + 1)
        with (Z.of_nat (List.length (pre ++ [m])))
        by (rewrite length_app; cbn [List.length]; lia).
      rewrite Hs, <- app_assoc. split; [reflexivity|]. split.
      * rewrite Hp. apply perm_skip. exact Hp'.
      * constructor; [exact Hsorted|].
        rewrite Forall_forall in *. intros z Hz. apply Hall.
        apply Permutation_in with (l := l'); [symmetry; exact Hp' | exact Hz].
Qed.

Lemma sort_symbol_table_perm_sorted (la : LexicalAnalyzer) :
  Permutation (symbol_table la) (symbol_table (sort_symbol_table la)) /\
  StronglySorted cstr_le (symbol_table (sort_symbol_table la)).
Proof.
  unfold sort_symbol_table. cbn [symbol_table set_symbol_table].
  destruct (sort_outer_sorted (List.length (symbol_table la)) [] (symbol_table la))
    as (l' & Hs & Hp & Hsorted); [lia|].
  cbn [app List.length] in Hs. change (Z.of_nat 0) with 0 in Hs.
  rewrite Nat2Z.id, Hs. split; assumption.
Qed.

(** X1: the sort of [analyze] leaves the symbol table a permutation of what
    it was, in non-decreasing [strcmp] order, and touches nothing else. *)
Theorem sort_symbol_table_sorted (la : LexicalAnalyzer) :
  Permutation (symbol_table la) (symbol_table (sort_symbol_table la)) /\
  StronglySorted cstr_le (symbol_table (sort_symbol_table la)) /\
  List.length (symbol_table (sort_symbol_table la)) = List.length (symbol_table la) /\
  tokens (sort_symbol_table la) = tokens la /\
  lexical_errors (sort_symbol_table la) = lexical_errors la /\
  current_pos (sort_symbol_table la) = current_pos la /\
  line_no (sort_symbol_table la) = line_no la /\
  same_tables (sort_symbol_table la) la.
Proof.
  destruct (sort_symbol_table_perm_sorted la) as [Hp Hs].
  split; [exact Hp|]. split; [exact Hs|].
  split; [symmetry; apply Permutation_length; exact Hp|].
  unfold sort_symbol_table. repeat split.
Qed.

Lemma sorted_perm_unique (l1 l2 : list cstr) :
  StronglySorted cstr_le l1 -> StronglySorted cstr_le l2 ->
  Permutation l1 l2 -> l1 = l2.
Proof.
  revert l2. induction l1 as [|a l1 IH]; intros l2 H1 H2 Hp.
  - apply Permutation_nil in Hp. symmetry. exact Hp.
  - destruct l2 as [|b l2].
    { apply Permutation_sym, Permutation_nil in Hp. discriminate Hp. }
    apply StronglySorted_inv in H1. destruct H1 as [S1 F1].
    apply StronglySorted_inv in H2. destruct H2 as [S2 F2].
    rewrite Forall_forall in F1, F2.
    assert (Hab : cstr_le a b).
    { assert (Hin : In b (a :: l1))
        by (apply Permutation_in with (l := b :: l2);
            [symmetry; exact Hp | left; reflexivity]).
      destruct Hin as [<-|Hin]; [|apply F1; exact Hin].
      unfold cstr_le. rewrite strcmp_refl. lia. }
    assert (Hba : cstr_le b a).
    { assert (Hin : In a (b :: l2))
        by (apply Permutation_in with (l := a :: l1); [exact Hp | left; reflexivity]).
      destruct Hin as [<-|Hin]; [|apply F2; exact Hin].
      unfold cstr_le. rewrite strcmp_refl. lia. }
    pose proof (cstr_le_antisym a b Hab Hba) as E. subst b.
    f_equal. apply IH; try assumption.
    apply Permutation_cons_inv with (a := a). exact Hp.
Qed.

(** X2: the sorted symbol table does not depend on the order in which the
    identifiers were first seen: two tables with the same entries are sorted
    to the same list; sorting a second time changes nothing; and sorting a
    table that is already in order leaves the analyzer as it is. *)
Theorem sort_symbol_table_canonical :
  (forall a b,
     Permutation (symbol_table a) (symbol_table b) ->
     symbol_table (sort_symbol_table a) = symbol_table (sort_symbol_table b))
  /\
  (forall la, sort_symbol_table (sort_symbol_table la) = sort_symbol_table la)
  /\
  (forall la, StronglySorted cstr_le (symbol_table la) -> sort_symbol_table la = la).
Proof.
  assert (H : forall a b,
             Permutation (symbol_table a) (symbol_table b) ->
             symbol_table (sort_symbol_table a) = symbol_table (sort_symbol_table b)).
  { intros a b Hp.
    destruct (sort_symbol_table_perm_sorted a) as (Pa & Sa).
    destruct (sort_symbol_table_perm_sorted b) as (Pb & Sb).
    apply sorted_perm_unique; try assumption.
    apply perm_trans with (symbol_table a); [symmetry; exact Pa|].
    apply perm_trans with (symbol_table b); assumption. }
  split; [exact H|]. split.
  - intros la.
    assert (E : symbol_table (sort_symbol_table (sort_symbol_table la)) =
                symbol_table (sort_symbol_table la)).
    { apply H. symmetry. apply (sort_symbol_table_perm_sorted la). }
    unfold sort_symbol_table in *.
    cbn [symbol_table set_symbol_table] in *.
    unfold set_symbol_table. cbn [keywords operators punctuation operator_chars
      lexical_errors tokens current_pos line_no symbol_table].
    f_equal. exact E.
  - intros la Hs.
    destruct (sort_symbol_table_perm_sorted la) as (P & S).
    assert (E : symbol_table (sort_symbol_table la) = symbol_table la)
      by (apply sorted_perm_unique; [exact S | exact Hs | symmetry; exact P]).
    unfold sort_symbol_table in *. cbn [symbol_table set_symbol_table] in E.
    cbv zeta. rewrite E. destruct la; reflexivity.
Qed.

Lemma sort_symbol_table_canonical_witness :
  symbol_table (sort_symbol_table
                  (set_symbol_table init_lexical_analyzer [lit "b"; lit "a"; lit "c"])) =
  symbol_table (sort_symbol_table
                  (set_symbol_table init_lexical_analyzer [lit "c"; lit "a"; lit "b"])) /\
  sort_symbol_table (set_symbol_table init_lexical_analyzer [lit "a"; lit "b"]) =
  set_symbol_table init_lexical_analyzer [lit "a"; lit "b"].
Proof.
  destruct sort_symbol_table_canonical as (Hperm & _ & Hsorted).
  split.
  - apply Hperm. cbn [symbol_table set_symbol_table].
    apply perm_trans with [lit "a"; lit "b"; lit "c"].
    + apply perm_swap.
    + apply perm_trans with [lit "a"; lit "c"; lit "b"].
      * apply perm_skip. apply perm_swap.
      * apply perm_swap.
  - apply Hsorted. cbn [symbol_table set_symbol_table].
    constructor; [constructor; [constructor | constructor] |].
    constructor; [|constructor]. vm_compute. discriminate.
Defined.

Lemma sorted_NoDup_strict (l : list cstr) :
  StronglySorted cstr_le l -> NoDup l -> StronglySorted cstr_lt l.
Proof.
  induction 1 as [|a l Hs IH Hall]; intros Hnd; [constructor|].
  inversion Hnd as [|? ? Hnin Hnd']; subst.
  constructor; [apply IH; exact Hnd'|].
  rewrite Forall_forall in *. intros x Hx.
  specialize (Hall x Hx). unfold cstr_le, cstr_lt in *.
  destruct (Z.eq_dec (strcmp a x) 0) as [E|E]; [|lia].
  apply strcmp_eq in E. subst x. contradiction.
Qed.

Lemma tokenize_symbols_NoDup la code :
  initialized la -> NoDup (symbol_table la) ->
  exists la', tokenize la code = Some la' /\ NoDup (symbol_table la').
Proof.
  intros Hi Hnd.
  destruct (tokenize_invariant code (fun s => NoDup (symbol_table s)) la Hi)
    as (la' & Ht & _ & H & _).
  - exact Hnd.
  - intros s _ _. apply tokenize_step_symbols_NoDup.
  - exists la'. split; assumption.
Qed.

(** X3: [analyze] reports the tokens and the errors of the scan unchanged and
    the identifiers recorded by the scan, each exactly once, in strictly
    increasing [strcmp] order. *)
Theorem analyze_report (la : LexicalAnalyzer) (code : cstr) :
  initialized la ->
  NoDup (symbol_table la) ->
  exists la1 la',
    tokenize la code = Some la1 /\
    analyze la code = Some la' /\
    tokens la' = tokens la1 /\
    lexical_errors la' = lexical_errors la1 /\
    (forall x, In x (symbol_table la') <-> In x (symbol_table la1)) /\
    NoDup (symbol_table la') /\
    StronglySorted cstr_lt (symbol_table la').
Proof.
  intros Hi Hnd.
  destruct (tokenize_symbols_NoDup la code Hi Hnd) as (la1 & Ht & Hnd1).
  exists la1, (sort_symbol_table la1).
  destruct (sort_symbol_table_perm_sorted la1) as (Hp & Hs).
  assert (Htok : tokens (sort_symbol_table la1) = tokens la1) by reflexivity.
  assert (Herr : lexical_errors (sort_symbol_table la1) = lexical_errors la1)
    by reflexivity.
  assert (Hnd' : NoDup (symbol_table (sort_symbol_table la1)))
    by (apply Permutation_NoDup with (l := symbol_table la1); assumption).
  split; [exact Ht|]. split; [unfold analyze; rewrite Ht; reflexivity|].
  split; [exact Htok|]. split; [exact Herr|]. split; [|split].
  - intros x. split; intros H.
    + apply Permutation_in with (l := symbol_table (sort_symbol_table la1));
        [symmetry; exact Hp | exact H].
    + apply Permutation_in with (l := symbol_table la1); assumption.
  - exact Hnd'.
  - apply sorted_NoDup_strict; assumption.
Qed.

Lemma analyze_report_witness :
  exists la1 la',
    tokenize init_lexical_analyzer (lit "int y = x + y; z = x;") = Some la1 /\
    analyze init_lexical_analyzer (lit "int y = x + y; z = x;") = Some la' /\
    tokens la' = tokens la1 /\
    lexical_errors la' = lexical_errors la1 /\
    (forall x, In x (symbol_table la') <-> In x (symbol_table la1)) /\
    NoDup (symbol_table la') /\
    StronglySorted cstr_lt (symbol_table la').
Proof.
  apply (analyze_report init_lexical_analyzer (lit "int y = x + y; z = x;")).
  - repeat split.
  - constructor.
Defined.

Example analyze_sorts_symbols :
  option_map symbol_table
    (analyze init_lexical_analyzer (lit "int y = x + y; z = x;")) =
  Some [lit "x"; lit "y"; lit "z"].
Proof. vm_compute. reflexivity. Qed.

(** ** What one iteration records *)

Lemma take_run_no_delim (s : cstr) :
  forallb (fun c => negb (is_delim c)) (take_run s) = true.
Proof.
  induction s as [|c s IH]; cbn [take_run]; [reflexivity|].
  destruct (is_delim c) eqn:E; [reflexivity|].
  cbn [forallb]. rewrite E, IH. reflexivity.
Qed.

Lemma forallb_firstn {A} (p : A -> bool) (n : nat) (l : list A) :
  forallb p l = true -> forallb p (firstn n l) = true.
Proof.
  revert n. induction l as [|x l IH]; intros [|n]; cbn; try reflexivity.
  rewrite !andb_true_iff. intros [-> H]. split; [reflexivity | apply IH; exact H].
Qed.

Lemma lexeme_of_shape la code :
  initialized la ->
  0 <= current_pos la < strlen code ->
  lexeme_start (char_at code (current_pos la)) = true ->
  lexeme_shape (lexeme_of la code) /\
  hd NUL (lexeme_of la code) = char_at code (current_pos la).
Proof.
  intros Hi Hp Hs.
  destruct (lexeme_of_run la code Hi) as [Hlex _]; [lia|].
  pose proof (take_run_no_delim (skipn (Z.to_nat (current_pos la)) code)) as Hnd.
  fold (run_at code (current_pos la)) in Hnd.
  rewrite (run_at_unfold code (current_pos la)) in Hlex, Hnd by lia.
  rewrite (lexeme_start_not_delim _ Hs) in Hlex, Hnd.
  rewrite Hlex. split; [|reflexivity].
  split; [|split].
  - rewrite length_firstn. cbn [List.length]. lia.
  - exact Hs.
  - apply forallb_firstn. exact Hnd.
Qed.

Lemma read_quoted_loop_shape fuel code len quote buf pos :
  (1 <= List.length buf <= 255)%nat ->
  hd NUL (fst (read_quoted_loop fuel code len quote buf pos)) = hd NUL buf /\
  (1 <= List.length (fst (read_quoted_loop fuel code len quote buf pos)) <= 255)%nat.
Proof.
  revert buf pos. induction fuel as [|f IH]; intros buf pos Hb; cbn [read_quoted_loop].
  - cbn [fst]. split; [reflexivity | exact Hb].
  - destruct (pos <? len); [|cbn [fst]; split; [reflexivity | exact Hb]].
    set (buf' := if Z.of_nat (List.length buf) <? 255
                 then buf ++ [char_at code pos] else buf).
    assert (Hb' : (1 <= List.length buf' <= 255)%nat /\ hd NUL buf' = hd NUL buf).
    { unfold buf'. destruct (Z.of_nat (List.length buf) <? 255) eqn:E.
      - apply Z.ltb_lt in E. rewrite length_app. cbn [List.length].
        split; [lia|]. destruct buf; [cbn in Hb; lia | reflexivity].
      - split; [exact Hb | reflexivity]. }
    destruct Hb' as [Hl Hh].
    destruct (Ascii.eqb (char_at code pos) quote).
    + cbn [fst]. split; [exact Hh | exact Hl].
    + destruct (IH buf' (pos + 1) Hl) as [H1 H2]. rewrite H1. split; [exact Hh | exact H2].
Qed.

Lemma quoted_text_shape la code quote :
  hd NUL (quoted_text la code quote) = quote /\
  (1 <= List.length (quoted_text la code quote) <= 255)%nat.
Proof.
  unfold quoted_text. apply (read_quoted_loop_shape _ code _ quote [quote]).
  cbn. lia.
Qed.

Lemma strchr_in (s : cstr) (c : ascii) :
  strchr s c = true -> c <> NUL -> In c s.
Proof.
  unfold strchr. intros H Hc. apply orb_true_iff in H. destruct H as [H|H].
  - apply Ascii.eqb_eq in H. contradiction.
  - apply existsb_exists in H. destruct H as (x & Hx & E).
    apply Ascii.eqb_eq in E. subst. exact Hx.
Qed.

Lemma operator_char_is_operator (c : ascii) :
  In c (operator_chars init_lexical_analyzer) -> In [c] operators_arr.
Proof.
  cbv [init_lexical_analyzer operator_chars operators_arr map lit
       list_ascii_of_string In].
  intros H; repeat (destruct H as [<-|H]; [tauto|]); contradiction.
Qed.

Lemma tokenize_step_event la code :
  initialized la ->
  0 <= current_pos la < strlen code ->
  (tokens (tokenize_step la code) = tokens la /\
   lexical_errors (tokenize_step la code) = lexical_errors la /\
   symbol_table (tokenize_step la code) = symbol_table la)
  \/
  (exists t,
     tokens (tokenize_step la code) = tokens la ++ [t] /\ token_ok t /\
     lexical_errors (tokenize_step la code) = lexical_errors la /\
     (symbol_table (tokenize_step la code) = symbol_table la \/
      (type t = lit "Identifier" /\ ~ In (value t) (symbol_table la) /\
       symbol_table (tokenize_step la code) = symbol_table la ++ [value t])))
  \/
  (exists e,
     tokens (tokenize_step la code) = tokens la /\
     lexical_errors (tokenize_step la code) = lexical_errors la ++ [e] /\
     error_ok e /\
     symbol_table (tokenize_step la code) = symbol_table la).
Proof.
  intros Hi Hp.
  pose proof (char_at_not_NUL code (current_pos la) Hp) as Hnz.
  assert (Hlex : lexeme_start (char_at code (current_pos la)) = true ->
                 lexeme_shape (lexeme_of la code))
    by (intros H; apply (lexeme_of_shape la code Hi Hp H)).
  unfold lexeme_start in Hlex.
  pose proof (quoted_text_shape la code DQUOTE) as [HD1 HD2].
  pose proof (quoted_text_shape la code SQUOTE) as [HS1 HS2].
  pose proof (is_in_keywords_iff la (lexeme_of la code) Hi) as Hkw.
  pose proof (fun op => is_in_operators_iff la op Hi) as Hop.
  destruct Hi as (_ & _ & Hpu & Hoc).
  step_cases.
  all: try match goal with
           | H : (0 <? strlen _) = _ |- _ => vm_compute in H; discriminate H
           end.
  all: try (left; repeat split; reflexivity).
  all: try specialize (Hlex eq_refl).
  all: try match goal with
           | H : lexeme_of _ _ = _ |- _ =>
               try rewrite H in Hlex; try rewrite H in Hkw
           end.
  (* an invalid lexeme *)
  all: try (right; right; eexists; split; [reflexivity|]; split; [reflexivity|];
            split; [|reflexivity];
            unfold error_ok; split; [exact Hlex|]; split; [|split; assumption];
            intros Hin; apply Hkw in Hin; discriminate Hin).
  (* a token *)
  all: right; left; eexists; split; [reflexivity|]; split; [|split; [reflexivity|]].
  (* the symbol table *)
  all: try (left; reflexivity).
  all: try (right; split; [reflexivity|]; split; [|reflexivity];
            intros Hin; apply existsb_cstr_eqb in Hin; cbn in *; congruence).
  (* the token *)
  all: unfold token_ok; cbn [type value]; split.
  all: try (destruct Hlex as (Hlen & _); exact Hlen).
  all: try assumption.
  all: try (cbn [List.length]; lia).
  all: first
    [ left; split; [reflexivity|]; apply Hkw; reflexivity
    | right; left; split; [reflexivity|]; split; [assumption|];
      intros Hin; apply Hkw in Hin; discriminate Hin
    | right; right; left; split; [reflexivity|]; split; [assumption | exact Hlex]
    | do 3 right; left; split; [reflexivity|];
      first [left; assumption | right; assumption]
    | do 4 right; left; split; [reflexivity|];
      first [ apply Hop; assumption
            | apply operator_char_is_operator; rewrite <- Hoc;
              apply strchr_in; assumption ]
    | do 5 right; split; [reflexivity|]; eexists; split; [reflexivity|];
      rewrite <- Hpu; apply strchr_in; assumption ].
Qed.

(** ** Invariants of a scan *)

(** X4: every token of a scan is well formed: its kind is one of Keyword,
    Identifier, Constant, String, Operator and Punctuation, its text has
    between 1 and 255 characters (it fits the 256-byte [value] buffer), and
    the text passes the test of its kind: a keyword of the table, a
    well-formed identifier that is not a keyword, a number accepted in full, a
    text that starts with a quote, an operator of the table, one punctuation
    character. *)
Theorem tokens_well_formed (la : LexicalAnalyzer) (code : cstr) :
  initialized la ->
  exists la', tokenize la code = Some la' /\ Forall token_ok (tokens la').
Proof.
  intros Hi.
  destruct (tokenize_invariant code (fun s => Forall token_ok (tokens s)) la Hi)
    as (la' & Ht & _ & H & _).
  - constructor.
  - intros s Hs Hp HI.
    destruct (tokenize_step_event s code Hs Hp)
      as [(E & _) | [(t & E & Hok & _) | (e & E & _)]]; rewrite E; try exact HI.
    apply Forall_app. split; [exact HI | constructor; [exact Hok | constructor]].
  - exists la'. split; assumption.
Qed.

Lemma tokens_well_formed_witness :
  exists la', tokenize init_lexical_analyzer (lit "while (x1 <= 0x1F) s = 'a';")
              = Some la' /\ Forall token_ok (tokens la').
Proof.
  apply (tokens_well_formed init_lexical_analyzer). repeat split.
Defined.

(** X5: every entry that a scan adds to the error list is a lexeme of 1 to
    255 characters, started by a letter, a digit or an underscore and free of
    delimiters, that is not a keyword, not a well-formed identifier and not a
    number; the entries already there are kept, in order, in front. *)
Theorem errors_are_invalid_lexemes (la : LexicalAnalyzer) (code : cstr) :
  initialized la ->
  exists la' added,
    tokenize la code = Some la' /\
    lexical_errors la' = lexical_errors la ++ added /\
    Forall error_ok added.
Proof.
  intros Hi.
  destruct (tokenize_invariant code
              (fun s => exists added,
                   lexical_errors s = lexical_errors la ++ added /\
                   Forall error_ok added) la Hi)
    as (la' & Ht & _ & (added & E & H) & _).
  - exists []. split; [symmetry; apply app_nil_r | constructor].
  - intros s Hs Hp (added & E & H).
    destruct (tokenize_step_event s code Hs Hp)
      as [(_ & E' & _) | [(t & _ & _ & E' & _) | (e & _ & E' & Hok & _)]];
      rewrite E'.
    + exists added. split; assumption.
    + exists added. split; assumption.
    + exists (added ++ [e]). split.
      * rewrite E, <- app_assoc. reflexivity.
      * apply Forall_app. split; [exact H | constructor; [exact Hok | constructor]].
  - exists la', added. repeat split; assumption.
Qed.

Lemma errors_are_invalid_lexemes_witness :
  exists la' added,
    tokenize init_lexical_analyzer (lit "x = 1a2b + 10u;") = Some la' /\
    lexical_errors la' = [] ++ added /\
    Forall error_ok added.
Proof.
  apply (errors_are_invalid_lexemes init_lexical_analyzer). repeat split.
Defined.

Lemma token_ok_identifier (t : Token) :
  token_ok t -> type t = lit "Identifier" ->
  is_identifier (value t) = true /\ ~ In (value t) keywords_arr /\
  (1 <= List.length (value t) <= 255)%nat.
Proof.
  intros [Hlen H] Hty. rewrite Hty in H.
  destruct H as [(E & _) | [(_ & Hid & Hkw) | [(E & _) | [(E & _) | [(E & _) | (E & _)]]]]];
    try discriminate E.
  repeat split; try assumption; apply Hlen.
Qed.

(** X6: a scan only appends to the symbol table, and every entry it appends
    is new, is the text of an Identifier token of that scan, is a well-formed
    identifier of 1 to 255 characters, and is not a keyword. *)
Theorem symbols_are_identifier_tokens (la : LexicalAnalyzer) (code : cstr) :
  initialized la ->
  exists la' added,
    tokenize la code = Some la' /\
    symbol_table la' = symbol_table la ++ added /\
    NoDup added /\
    Forall (fun x =>
              ~ In x (symbol_table la) /\
              In (mkToken (lit "Identifier") x) (tokens la') /\
              is_identifier x = true /\
              ~ In x keywords_arr /\
              (1 <= List.length x <= 255)%nat) added.
Proof.
  intros Hi.
  destruct (tokenize_invariant code
              (fun s => exists added,
                   symbol_table s = symbol_table la ++ added /\
                   NoDup added /\
                   Forall (fun x =>
                             ~ In x (symbol_table la) /\
                             In (mkToken (lit "Identifier") x) (tokens s) /\
                             is_identifier x = true /\
                             ~ In x keywords_arr /\
                             (1 <= List.length x <= 255)%nat) added) la Hi)
    as (la' & Ht & _ & (added & E & Hnd & H) & _).
  - exists []. split; [symmetry; apply app_nil_r|]. split; constructor.
  - intros s Hs Hp (added & E & Hnd & H).
    destruct (tokenize_step_event s code Hs Hp)
      as [(Et & _ & Es) | [(t & Et & Hok & _ & Hsym) | (e & Et & _ & _ & Es)]].
    + exists added. rewrite Es, Et. repeat split; assumption.
    + assert (Hmono : Forall (fun x =>
                                ~ In x (symbol_table la) /\
                                In (mkToken (lit "Identifier") x) (tokens s ++ [t]) /\
                                is_identifier x = true /\
                                ~ In x keywords_arr /\
                                (1 <= List.length x <= 255)%nat) added).
      { rewrite Forall_forall in *. intros x Hx.
        destruct (H x Hx) as (H1 & H2 & H3). repeat split; try apply H3; auto.
        apply in_or_app. left. exact H2. }
      rewrite Et. destruct Hsym as [Es | (Hty & Hnin & Es)].
      * exists added. rewrite Es. repeat split; assumption.
      * exists (added ++ [value t]). rewrite Es, E, <- app_assoc.
        split; [reflexivity|].
        rewrite E in Hnin.
        assert (Hn1 : ~ In (value t) (symbol_table la))
          by (intros Hin; apply Hnin, in_or_app; left; exact Hin).
        assert (Hn2 : ~ In (value t) added)
          by (intros Hin; apply Hnin, in_or_app; right; exact Hin).
        split.
        -- apply NoDup_app; [exact Hnd | repeat constructor; intros [] |].
           intros x Hx [<-|[]]. contradiction.
        -- apply Forall_app. split; [exact Hmono|].
           constructor; [|constructor].
           split; [exact Hn1|]. split; [|exact (token_ok_identifier t Hok Hty)].
           apply in_or_app. right. left. destruct t as [ty v].
           cbn in Hty |- *. rewrite Hty. reflexivity.
    + exists added. rewrite Es, Et. repeat split; assumption.
  - exists la', added. repeat split; assumption.
Qed.

Lemma symbols_are_identifier_tokens_witness :
  exists la' added,
    tokenize init_lexical_analyzer (lit "int f(int a) { return a + b; }") = Some la' /\
    symbol_table la' = [] ++ added /\
    NoDup added /\
    Forall (fun x =>
              ~ In x [] /\
              In (mkToken (lit "Identifier") x) (tokens la') /\
              is_identifier x = true /\
              ~ In x keywords_arr /\
              (1 <= List.length x <= 255)%nat) added.
Proof.
  apply (symbols_are_identifier_tokens init_lexical_analyzer). repeat split.
Defined.

(** X7: a scan emits at most one token or error per character: the number of
    tokens plus the number of errors it adds is at most the input length. *)
Theorem tokens_and_errors_bounded (la : LexicalAnalyzer) (code : cstr) :
  initialized la ->
  exists la',
    tokenize la code = Some la' /\
    Z.of_nat (List.length (tokens la')) + Z.of_nat (List.length (lexical_errors la'))
    <= Z.of_nat (List.length (lexical_errors la)) + strlen code.
Proof.
  intros Hi.
  destruct (tokenize_invariant code
              (fun s => Z.of_nat (List.length (tokens s))
                        + Z.of_nat (List.length (lexical_errors s))
                        <= Z.of_nat (List.length (lexical_errors la))
                           + Z.min (current_pos s) (strlen code)) la Hi)
    as (la' & Ht & _ & H & _).
  - cbn. pose proof (strlen_nonneg code). lia.
  - intros s Hs Hp HI.
    pose proof (tokenize_step_progress s code Hs Hp) as Hpr.
    destruct (tokenize_step_event s code Hs Hp)
      as [(Et & Ee & _) | [(t & Et & _ & Ee & _) | (e & Et & Ee & _)]];
      rewrite Et, Ee, ?length_app; cbn [List.length]; lia.
  - exists la'. split; [exact Ht | lia].
Qed.

Lemma tokens_and_errors_bounded_witness :
  exists la',
    tokenize init_lexical_analyzer (lit "a+b;1x") = Some la' /\
    Z.of_nat (List.length (tokens la')) + Z.of_nat (List.length (lexical_errors la'))
    <= 0 + 6.
Proof.
  apply (tokens_and_errors_bounded init_lexical_analyzer (lit "a+b;1x")).
  repeat split.
Defined.

(** ** The symbol table, characterised *)

Lemma tokenize_symbols_kept la code :
  initialized la ->
  exists la', tokenize la code = Some la' /\
              forall x, In x (symbol_table la) -> In x (symbol_table la').
Proof.
  intros Hi.
  destruct (tokenize_invariant code
              (fun s => forall x, In x (symbol_table la) -> In x (symbol_table s))
              la Hi) as (la' & Ht & _ & H & _).
  - intros x Hx. exact Hx.
  - intros s _ _ HI x Hx.
    destruct (tokenize_step_symbols_extend s code) as [more E].
    rewrite E. apply in_or_app. left. apply HI. exact Hx.
  - exists la'. split; assumption.
Qed.

(** X8: after a scan the symbol table holds exactly the entries it held
    before and the lexemes that the scan read, at some iteration, as a
    well-formed identifier that is not a keyword and whose next non-whitespace
    character is not [(]. *)
Theorem symbol_table_characterised (la : LexicalAnalyzer) (code : cstr) :
  initialized la ->
  exists la',
    tokenize la code = Some la' /\
    forall x,
      In x (symbol_table la') <->
      In x (symbol_table la) \/
      exists n, reads_lexeme la code n x /\
                is_identifier x = true /\
                ~ In x keywords_arr /\
                ~ followed_by_paren (scan_state la code n) code.
Proof.
  intros Hi.
  destruct (tokenize_scan_invariant la code Hi
              (fun s => forall x,
                   In x (symbol_table s) ->
                   In x (symbol_table la) \/
                   exists n, reads_lexeme la code n x /\
                             is_identifier x = true /\
                             ~ In x keywords_arr /\
                             ~ followed_by_paren (scan_state la code n) code))
    as (la' & m & Ht & Hm & Hsound & Hend).
  - intros x Hx. left. exact Hx.
  - intros n s Hp HI x Hx.
    assert (Hs : initialized s) by (apply scan_state_initialized; exact Hi).
    assert (Hp0 : 0 <= current_pos s < strlen code)
      by (split; [apply scan_state_pos_nonneg; exact Hi | exact Hp]).
    destruct (tokenize_step_symbols s code) as [E | (Hst & Hid & Hnp & _ & E)].
    + rewrite E in Hx. apply HI. exact Hx.
    + rewrite E in Hx. apply in_app_or in Hx. destruct Hx as [Hx | [<- | []]].
      * apply HI. exact Hx.
      * right. exists n. split; [repeat split; assumption|].
        split; [exact Hid|]. split; [|exact Hnp].
        destruct (tokenize_step_event s code Hs Hp0)
          as [(_ & _ & Es) | [(t & _ & Hok & _ & Hsym) | (e & _ & _ & _ & Es)]].
        -- rewrite Es in E. exfalso.
           apply (f_equal (@List.length cstr)) in E.
           rewrite length_app in E. cbn in E. lia.
        -- destruct Hsym as [Es | (Hty & _ & Es)].
           ++ rewrite Es in E. exfalso.
              apply (f_equal (@List.length cstr)) in E.
              rewrite length_app in E. cbn in E. lia.
           ++ rewrite Es in E. apply app_inj_tail in E. destruct E as [_ E].
              rewrite <- E. apply (token_ok_identifier t Hok Hty).
        -- rewrite Es in E. exfalso.
           apply (f_equal (@List.length cstr)) in E.
           rewrite length_app in E. cbn in E. lia.
  - exists la'. split; [exact Ht|].
    intros x. split; [apply Hsound|].
    intros [Hx | (n & Hr & Hid & Hkw & Hnp)].
    + destruct (tokenize_symbols_kept la code Hi) as (la2 & Ht2 & Hk).
      rewrite Ht in Ht2. injection Ht2 as <-. apply Hk. exact Hx.
    + destruct (identifier_recorded la code Hi x n Hid Hkw Hr Hnp)
        as (la2 & m2 & Ht2 & _ & Hin).
      rewrite Ht in Ht2. injection Ht2 as <-. exact Hin.
Qed.

Lemma symbol_table_characterised_witness :
  exists la',
    tokenize init_lexical_analyzer (lit "f(a)") = Some la' /\
    forall x,
      In x (symbol_table la') <->
      In x [] \/
      exists n, reads_lexeme init_lexical_analyzer (lit "f(a)") n x /\
                is_identifier x = true /\
                ~ In x keywords_arr /\
                ~ followed_by_paren
                    (scan_state init_lexical_analyzer (lit "f(a)") n) (lit "f(a)").
Proof.
  apply (symbol_table_characterised init_lexical_analyzer (lit "f(a)")).
  repeat split.
Defined.

(** ** An input made of one lexeme *)

Lemma whole_lexeme_scan la s :
  initialized la ->
  forallb (fun c => negb (is_delim c)) s = true ->
  (1 <= List.length s <= 255)%nat ->
  lexeme_start (hd NUL s) = true ->
  let la0 := set_current_pos (set_tokens la []) 0 in
  lexeme_of la0 s = s /\
  lexeme_end la0 s = strlen s /\
  tokenize la s =
  Some (set_current_pos
          (if 0 <? strlen (type (fst (read_lexeme la0 s)))
           then push_token (snd (read_lexeme la0 s)) (fst (read_lexeme la0 s))
           else snd (read_lexeme la0 s))
          (strlen s)).
Proof.
  intros Hi Hnd Hlen Hst la0.
  pose proof (strlen_no_delim s Hnd) as Hsl.
  assert (Hi0 : initialized la0) by exact Hi.
  destruct (lexeme_of_run la0 s Hi0) as [Hlex Hend].
  { change (current_pos la0) with 0. rewrite Hsl. lia. }
  change (current_pos la0) with 0 in Hlex, Hend.
  rewrite (run_at_whole s Hnd) in Hlex, Hend.
  rewrite firstn_all2 in Hlex by lia.
  rewrite Z.add_0_l, <- Hsl in Hend.
  split; [exact Hlex|]. split; [exact Hend|].
  assert (Hs : lexeme_start (char_at s (current_pos la0)) = true).
  { destruct s as [|c r]; [cbn in Hlen; lia | exact Hst]. }
  unfold tokenize. fold la0.
  destruct (Z.to_nat (strlen s)) as [|f] eqn:Hf; [lia|].
  rewrite tokenize_loop_unfold by (change (current_pos la0) with 0; lia).
  rewrite tokenize_step_lexeme by exact Hs.
  assert (Hpos : current_pos (snd (read_lexeme la0 s)) + 1 = strlen s).
  { rewrite read_lexeme_eq. cbv zeta. rewrite Hend.
    repeat break_if; cbn [snd]; unfold push_symbol, push_lexical_error;
      repeat break_if; cbn; lia. }
  rewrite Hpos. apply tokenize_loop_done. cbn. lia.
Qed.

Lemma keyword_shape (k : cstr) :
  In k keywords_arr ->
  forallb (fun c => negb (is_delim c)) k = true /\
  (1 <= List.length k <= 255)%nat /\
  lexeme_start (hd NUL k) = true.
Proof.
  cbv [keywords_arr map lit list_ascii_of_string In].
  intros H; repeat (destruct H as [<-|H]; [vm_compute; repeat split; lia|]);
    contradiction.
Qed.

(** X9: each of the 32 keywords, scanned as the whole input, yields exactly
    one token, of kind Keyword, with the keyword as text, and leaves the
    symbol table, the error list and the line counter as they were. *)
Theorem keyword_alone (la : LexicalAnalyzer) (k : cstr) :
  initialized la ->
  In k keywords_arr ->
  exists la',
    tokenize la k = Some la' /\
    tokens la' = [mkToken (lit "Keyword") k] /\
    symbol_table la' = symbol_table la /\
    lexical_errors la' = lexical_errors la /\
    line_no la' = line_no la /\
    current_pos la' = strlen k.
Proof.
  intros Hi Hk.
  destruct (keyword_shape k Hk) as (Hnd & Hlen & Hst).
  destruct (whole_lexeme_scan la k Hi Hnd Hlen Hst) as (Hlex & _ & Ht).
  rewrite Ht. eexists. split; [reflexivity|].
  rewrite read_lexeme_eq. cbv zeta. rewrite Hlex.
  assert (Hin : is_in_keywords (set_current_pos (set_tokens la []) 0) k = true)
    by (apply is_in_keywords_iff; [exact Hi | exact Hk]).
  rewrite Hin. cbn [fst snd type].
  change (0 <? strlen (lit "Keyword")) with true. cbv iota.
  repeat split.
Qed.

Lemma keyword_alone_witness :
  exists la',
    tokenize init_lexical_analyzer (lit "while") = Some la' /\
    tokens la' = [mkToken (lit "Keyword") (lit "while")] /\
    symbol_table la' = [] /\
    lexical_errors la' = [] /\
    line_no la' = 1 /\
    current_pos la' = 5.
Proof.
  apply (keyword_alone init_lexical_analyzer (lit "while")).
  - repeat split.
  - cbv. tauto.
Defined.

Lemma is_identifier_shape (s : cstr) :
  is_identifier s = true ->
  forallb (fun c => negb (is_delim c)) s = true /\
  (1 <= List.length s)%nat /\
  lexeme_start (hd NUL s) = true.
Proof.
  destruct s as [|c r]; [discriminate|]. cbn [is_identifier].
  rewrite andb_true_iff. intros [Hc Hr].
  assert (Hs : lexeme_start c = true).
  { unfold lexeme_start. apply orb_true_iff in Hc. destruct Hc as [-> | ->];
      [reflexivity | rewrite orb_true_r; reflexivity]. }
  split; [|split; [cbn; lia | exact Hs]].
  cbn [forallb]. rewrite (lexeme_start_not_delim c Hs). cbn [negb andb].
  induction r as [|x r IH]; [reflexivity|].
  cbn [forallb] in *. apply andb_true_iff in Hr. destruct Hr as [Hx Hr].
  rewrite (ident_char_not_delim x Hx), IH by exact Hr. reflexivity.
Qed.

(** X10: a well-formed identifier of at most 255 characters that is not a
    keyword, scanned as the whole input, yields exactly one token, of kind
    Identifier, with the identifier as text; it is appended to the symbol
    table unless it is already there, and no error is recorded. *)
Theorem identifier_alone (la : LexicalAnalyzer) (s : cstr) :
  initialized la ->
  is_identifier s = true ->
  ~ In s keywords_arr ->
  (List.length s <= 255)%nat ->
  exists la',
    tokenize la s = Some la' /\
    tokens la' = [mkToken (lit "Identifier") s] /\
    (In s (symbol_table la) -> symbol_table la' = symbol_table la) /\
    (~ In s (symbol_table la) -> symbol_table la' = symbol_table la ++ [s]) /\
    lexical_errors la' = lexical_errors la.
Proof.
  intros Hi Hid Hkw Hlen.
  destruct (is_identifier_shape s Hid) as (Hnd & Hl1 & Hst).
  destruct (whole_lexeme_scan la s Hi Hnd (conj Hl1 Hlen) Hst) as (Hlex & Hend & Ht).
  rewrite Ht. eexists. split; [reflexivity|].
  rewrite read_lexeme_eq. cbv zeta. rewrite Hlex, Hend.
  destruct (is_in_keywords (set_current_pos (set_tokens la []) 0) s) eqn:Ek.
  { apply (is_in_keywords_iff _ s Hi) in Ek. contradiction. }
  destruct s as [|c r] eqn:Es; [discriminate Hid|]. rewrite <- Es in *.
  rewrite Hid.
  assert (Hpeek : peek_next_non_whitespace
                    (set_current_pos (set_current_pos (set_tokens la []) 0)
                       (strlen s - 1)) s = NUL).
  { unfold peek_next_non_whitespace. cbn [current_pos set_current_pos].
    replace (strlen s - 1 + 1) with (strlen s) by lia.
    rewrite Z.sub_diag. cbn [Z.to_nat peek_loop]. rewrite Z.ltb_irrefl. reflexivity. }
  rewrite Hpeek. change (Ascii.eqb NUL "(") with false. cbv iota.
  cbn [fst snd type]. change (0 <? strlen (lit "Identifier")) with true. cbv iota.
  unfold push_symbol. cbn [symbol_table set_current_pos set_tokens].
  destruct (existsb (fun s0 : cstr => cstr_eqb s0 s) (symbol_table la)) eqn:Ex.
  - apply existsb_cstr_eqb in Ex. cbn. repeat split; auto. intros H. contradiction.
  - assert (~ In s (symbol_table la))
      by (intros H; apply existsb_cstr_eqb in H; congruence).
    cbn. repeat split; auto. intros H'. contradiction.
Qed.

Lemma identifier_alone_witness :
  exists la',
    tokenize init_lexical_analyzer (lit "_count1") = Some la' /\
    tokens la' = [mkToken (lit "Identifier") (lit "_count1")] /\
    (In (lit "_count1") [] -> symbol_table la' = []) /\
    (~ In (lit "_count1") [] -> symbol_table la' = [] ++ [lit "_count1"]) /\
    lexical_errors la' = [].
Proof.
  apply (identifier_alone init_lexical_analyzer (lit "_count1")).
  - repeat split.
  - reflexivity.
  - cbv. intuition discriminate.
  - cbv. lia.
Defined.

(** ** Slices of the input *)

Lemma slice_empty (code : cstr) (a : Z) : slice code a a = [].
Proof. unfold slice. rewrite Z.sub_diag. reflexivity. Qed.

Lemma slice_unfold (code : cstr) (a b : Z) :
  0 <= a < strlen code -> a < b ->
  slice code a b = char_at code a :: slice code (a + 1) b.
Proof.
  intros Ha Hb. unfold slice.
  destruct (skipn_char_at code a) as [[_ E]|E]; [lia | |].
  - exfalso. exact (char_at_not_NUL code a Ha E).
  - rewrite E. replace (Z.to_nat (b - a)) with (S (Z.to_nat (b - (a + 1)))) by lia.
    reflexivity.
Qed.

Lemma slice_snoc (code : cstr) (a b : Z) :
  0 <= a <= b -> b < strlen code ->
  slice code a (b + 1) = slice code a b ++ [char_at code b].
Proof.
  intros Ha Hb.
  assert (H : forall n a, 0 <= a -> b = a + Z.of_nat n ->
                          slice code a (b + 1) = slice code a b ++ [char_at code b]).
  { induction n as [|n IH]; intros a' Ha' E.
    - assert (a' = b) as -> by lia.
      rewrite slice_empty, (slice_unfold code b (b + 1)), slice_empty by lia.
      reflexivity.
    - rewrite (slice_unfold code a' (b + 1)), (slice_unfold code a' b) by lia.
      rewrite (IH (a' + 1)) by lia. reflexivity. }
  apply (H (Z.to_nat (b - a))); lia.
Qed.

Lemma count_nl_app (s t : cstr) : count_nl (s ++ t) = count_nl s + count_nl t.
Proof. unfold count_nl. rewrite filter_app, length_app. lia. Qed.

Lemma count_nl_nonneg (s : cstr) : 0 <= count_nl s.
Proof. unfold count_nl. lia. Qed.

Lemma count_nl_single (c : ascii) :
  count_nl [c] = if Ascii.eqb c NL then 1 else 0.
Proof.
  unfold count_nl. cbn [filter]. rewrite (Ascii.eqb_sym NL c).
  destruct (Ascii.eqb c NL); reflexivity.
Qed.

Lemma slice_split (code : cstr) (a b c : Z) :
  0 <= a <= b -> b <= c -> c <= strlen code ->
  slice code a c = slice code a b ++ slice code b c.
Proof.
  intros Ha Hb Hc.
  assert (H : forall n b, a <= b -> c = b + Z.of_nat n ->
                          slice code a c = slice code a b ++ slice code b c).
  { induction n as [|n IH]; intros b' Hb' E.
    - assert (b' = c) as -> by lia. rewrite slice_empty, app_nil_r. reflexivity.
    - rewrite (IH (b' + 1)) by lia.
      rewrite (slice_snoc code a b') by lia.
      rewrite (slice_unfold code b' c) by lia.
      rewrite <- app_assoc. reflexivity. }
  apply (H (Z.to_nat (c - b))); lia.
Qed.

Lemma count_newlines_slice (code : cstr) :
  count_newlines code = count_nl (slice code 0 (strlen code)).
Proof.
  unfold count_newlines, count_nl, slice, strlen.
  rewrite Z.sub_0_r, Nat2Z.id. reflexivity.
Qed.

Lemma input_from_slice (code : cstr) (p : Z) :
  input_from code p = slice code p (strlen code).
Proof. reflexivity. Qed.

(** ** Terminated literals *)

Lemma read_quoted_loop_terminated fuel code quote buf pos q :
  0 <= pos <= q -> q < strlen code ->
  strlen code - pos <= Z.of_nat fuel ->
  (List.length buf <= 255)%nat ->
  char_at code q = quote ->
  (forall k, pos <= k < q -> char_at code k <> quote) ->
  read_quoted_loop fuel code (strlen code) quote buf pos =
  (firstn 255 (buf ++ slice code pos (q + 1)), q).
Proof.
  revert buf pos. induction fuel as [|f IH]; intros buf pos Hp Hq Hf Hl Hc Hno.
  - lia.
  - cbn [read_quoted_loop].
    replace (pos <? strlen code) with true by (symmetry; apply Z.ltb_lt; lia).
    rewrite (slice_unfold code pos (q + 1)) by lia.
    destruct (Ascii.eqb (char_at code pos) quote) eqn:E.
    + apply Ascii.eqb_eq in E.
      assert (pos = q) as ->.
      { destruct (Z.eq_dec pos q) as [e|ne]; [exact e|].
        exfalso. apply (Hno pos); [lia | exact E]. }
      rewrite slice_empty. f_equal.
      destruct (Z.of_nat (List.length buf) <? 255) eqn:Hb.
      * apply Z.ltb_lt in Hb. rewrite firstn_all2; [reflexivity|].
        rewrite length_app. cbn. lia.
      * apply Z.ltb_ge in Hb. rewrite firstn_app_exact by lia. reflexivity.
    + apply Ascii.eqb_neq in E.
      assert (pos < q).
      { destruct (Z.eq_dec pos q) as [e|ne]; [|lia]. subst. contradiction. }
      rewrite IH; [| lia | lia | lia | | exact Hc | intros; apply Hno; lia].
      * f_equal.
        destruct (Z.of_nat (List.length buf) <? 255) eqn:Hb.
        -- rewrite <- app_assoc. reflexivity.
        -- apply Z.ltb_ge in Hb. rewrite !firstn_app_exact by lia. reflexivity.
      * destruct (Z.of_nat (List.length buf) <? 255) eqn:Hb; [|exact Hl].
        apply Z.ltb_lt in Hb. rewrite length_app. cbn. lia.
Qed.

(** X11: at an opening quote whose first later occurrence is at position
    [q], the reader captures the text from the opening quote to that
    occurrence, both included, cut to its first 255 characters; escape
    sequences are not interpreted, so a quote after a backslash ends the
    literal.  A String token is emitted, the cursor moves just past the
    closing quote, and the symbol table, the error list and the line counter
    are unchanged (newlines inside a literal are not counted). *)
Theorem terminated_literal_captured
    (la : LexicalAnalyzer) (code : cstr) (quote : ascii) (q : Z) :
  quote = DQUOTE \/ quote = SQUOTE ->
  0 <= current_pos la < q -> q < strlen code ->
  char_at code (current_pos la) = quote ->
  char_at code q = quote ->
  (forall k, current_pos la < k < q -> char_at code k <> quote) ->
  tokens (tokenize_step la code) =
    tokens la ++ [mkToken (lit "String") (firstn 255 (slice code (current_pos la) (q + 1)))] /\
  current_pos (tokenize_step la code) = q + 1 /\
  symbol_table (tokenize_step la code) = symbol_table la /\
  lexical_errors (tokenize_step la code) = lexical_errors la /\
  line_no (tokenize_step la code) = line_no la.
Proof.
  intros Hq Hp Hlen Hc Hcq Hno.
  assert (Hloop : read_quoted_loop (Z.to_nat (strlen code - (current_pos la + 1))) code
                    (strlen code) quote [quote] (current_pos la + 1) =
                  (firstn 255 (slice code (current_pos la) (q + 1)), q)).
  { rewrite (read_quoted_loop_terminated _ code quote [quote] (current_pos la + 1) q);
      try lia; try assumption.
    - rewrite (slice_unfold code (current_pos la) (q + 1)) by lia.
      rewrite Hc. reflexivity.
    - cbn. lia.
    - intros k Hk. apply Hno. lia. }
  assert (Hst : tokenize_step la code =
                set_current_pos
                  (push_token (set_current_pos la q)
                     (mkToken (lit "String")
                        (firstn 255 (slice code (current_pos la) (q + 1)))))
                  (q + 1)).
  { unfold tokenize_step. rewrite Hc.
    destruct Hq as [-> | ->].
    - rewrite read_string_eq. unfold quoted_text, quoted_end. rewrite Hloop. reflexivity.
    - rewrite read_character_eq. unfold quoted_text, quoted_end. rewrite Hloop. reflexivity. }
  rewrite Hst. repeat split.
Qed.

Lemma terminated_literal_captured_witness :
  let code := DQUOTE :: lit "a\" ++ DQUOTE :: lit "b" ++ [DQUOTE] in
  tokens (tokenize_step init_lexical_analyzer code) =
    [mkToken (lit "String") (DQUOTE :: lit "a\" ++ [DQUOTE])] /\
  current_pos (tokenize_step init_lexical_analyzer code) = 4.
Proof.
  intros code.
  destruct (terminated_literal_captured init_lexical_analyzer code DQUOTE 3)
    as (H1 & H2 & _).
  - left. reflexivity.
  - cbv. split; congruence.
  - reflexivity.
  - reflexivity.
  - reflexivity.
  - intros k Hk. change (current_pos init_lexical_analyzer) with 0 in Hk.
    assert (k = 1 \/ k = 2) as [-> | ->] by lia; discriminate.
  - split; [exact H1 | exact H2].
Defined.

(** ** Block comments and the line counter *)

Lemma skip_block_loop_lines fuel code pos line :
  0 <= pos <= strlen code ->
  snd (skip_block_loop fuel code (strlen code) pos line) =
  line + count_nl (slice code pos (fst (skip_block_loop fuel code (strlen code) pos line))).
Proof.
  revert pos line. induction fuel as [|f IH]; intros pos line Hp;
    cbn [skip_block_loop].
  - cbn [fst snd]. rewrite slice_empty. cbn. lia.
  - destruct (pos <? strlen code - 1) eqn:Hlt.
    + apply Z.ltb_lt in Hlt.
      destruct (Ascii.eqb (char_at code pos) "*"
                && Ascii.eqb (char_at code (pos + 1)) "/") eqn:E.
      * cbn [fst snd]. rewrite (slice_unfold code pos (pos + 1)) by lia.
        rewrite slice_empty, count_nl_single.
        destruct (Ascii.eqb (char_at code pos) NL); lia.
      * rewrite IH by lia.
        pose proof (skip_block_loop_bounds f code (strlen code) (pos + 1)
                      (if Ascii.eqb (char_at code pos) NL then line + 1 else line))
          as (Hb & _).
        rewrite (slice_unfold code pos) by lia.
        change (char_at code pos :: ?l) with ([char_at code pos] ++ l).
        rewrite count_nl_app, count_nl_single.
        destruct (Ascii.eqb (char_at code pos) NL); lia.
    + cbn [fst snd]. rewrite slice_empty. cbn. lia.
Qed.

Lemma skip_block_loop_closer fuel code pos line q :
  0 <= pos <= q -> q < strlen code - 1 ->
  strlen code - pos <= Z.of_nat fuel ->
  char_at code q = "*"%char -> char_at code (q + 1) = "/"%char ->
  (forall k, pos <= k < q ->
             ~ (char_at code k = "*"%char /\ char_at code (k + 1) = "/"%char)) ->
  fst (skip_block_loop fuel code (strlen code) pos line) = q + 1.
Proof.
  revert pos line. induction fuel as [|f IH]; intros pos line Hp Hq Hf H1 H2 Hno.
  - lia.
  - cbn [skip_block_loop].
    replace (pos <? strlen code - 1) with true by (symmetry; apply Z.ltb_lt; lia).
    destruct (Ascii.eqb (char_at code pos) "*"
              && Ascii.eqb (char_at code (pos + 1)) "/") eqn:E.
    + apply andb_true_iff in E. rewrite !Ascii.eqb_eq in E.
      destruct (Z.eq_dec pos q) as [->|ne]; [reflexivity|].
      exfalso. apply (Hno pos); [lia | exact E].
    + assert (pos <> q).
      { intros ->. rewrite H1, H2 in E. discriminate E. }
      apply IH; try assumption; try lia. intros k Hk. apply Hno. lia.
Qed.

Lemma skip_block_loop_open fuel code pos line :
  0 <= pos <= strlen code ->
  strlen code - pos <= Z.of_nat fuel ->
  (forall k, pos <= k < strlen code - 1 ->
             ~ (char_at code k = "*"%char /\ char_at code (k + 1) = "/"%char)) ->
  strlen code - 1 <= fst (skip_block_loop fuel code (strlen code) pos line).
Proof.
  revert pos line. induction fuel as [|f IH]; intros pos line Hp Hf Hno.
  - cbn. lia.
  - cbn [skip_block_loop]. destruct (pos <? strlen code - 1) eqn:Hlt.
    + apply Z.ltb_lt in Hlt.
      destruct (Ascii.eqb (char_at code pos) "*"
                && Ascii.eqb (char_at code (pos + 1)) "/") eqn:E.
      * apply andb_true_iff in E. rewrite !Ascii.eqb_eq in E.
        exfalso. apply (Hno pos); [lia | exact E].
      * apply IH; try lia. intros k Hk. apply Hno. lia.
    + apply Z.ltb_ge in Hlt. cbn [fst]. lia.
Qed.

(** The state after the iteration of the driving loop that meets a block
    comment: only the cursor and the line counter have moved. *)
Lemma block_comment_state la code :
  current_pos la + 1 < strlen code ->
  char_at code (current_pos la) = "/"%char ->
  char_at code (current_pos la + 1) = "*"%char ->
  tokenize_step la code =
  set_current_pos
    (set_line_no (set_current_pos la (fst (block_end la code))) (snd (block_end la code)))
    (fst (block_end la code) + 1).
Proof.
  intros Hp H0 H1. unfold tokenize_step. rewrite skip_comment_eq, H0, H1.
  replace (current_pos la + 1 <? strlen code) with true
    by (symmetry; apply Z.ltb_lt; lia).
  reflexivity.
Qed.

(** X12: on a block comment the driving loop emits no token and records no
    symbol and no error; the line counter grows by the number of newlines
    between the opener and the position [r] where the skipper stops, and the
    cursor moves to [r + 1].  When the first closer that starts after the
    opener is at [q], the cursor ends just past it, at [q + 2]; when there is
    none the comment runs to the end of the input without any error. *)
Theorem block_comment_skipped (la : LexicalAnalyzer) (code : cstr) :
  0 <= current_pos la ->
  current_pos la + 1 < strlen code ->
  char_at code (current_pos la) = "/"%char ->
  char_at code (current_pos la + 1) = "*"%char ->
  let la' := tokenize_step la code in
  let r := fst (block_end la code) in
  tokens la' = tokens la /\
  symbol_table la' = symbol_table la /\
  lexical_errors la' = lexical_errors la /\
  current_pos la' = r + 1 /\
  line_no la' = line_no la + count_nl (slice code (current_pos la + 2) r) /\
  (forall q,
     current_pos la + 2 <= q -> q + 1 < strlen code ->
     char_at code q = "*"%char -> char_at code (q + 1) = "/"%char ->
     (forall k, current_pos la + 2 <= k < q ->
                ~ (char_at code k = "*"%char /\ char_at code (k + 1) = "/"%char)) ->
     current_pos la' = q + 2) /\
  ((forall k, current_pos la + 2 <= k < strlen code - 1 ->
              ~ (char_at code k = "*"%char /\ char_at code (k + 1) = "/"%char)) ->
   strlen code <= current_pos la').
Proof.
  intros Hp0 Hp H0 H1 la' r.
  assert (Hst : la' = set_current_pos
                        (set_line_no (set_current_pos la r) (snd (block_end la code)))
                        (r + 1))
    by (apply block_comment_state; assumption).
  rewrite Hst. cbn [tokens symbol_table lexical_errors current_pos line_no
                    set_current_pos set_line_no].
  split; [reflexivity|]. split; [reflexivity|]. split; [reflexivity|].
  split; [reflexivity|]. split; [|split].
  - unfold r, block_end. apply skip_block_loop_lines. lia.
  - intros q Hq1 Hq2 Hc1 Hc2 Hno. unfold r, block_end.
    rewrite (skip_block_loop_closer _ code (current_pos la + 2) (line_no la) q);
      try assumption; lia.
  - intros Hno. unfold r, block_end.
    pose proof (skip_block_loop_open
                  (Z.to_nat (strlen code - (current_pos la + 2))) code
                  (current_pos la + 2) (line_no la)) as H.
    specialize (H ltac:(lia) ltac:(lia) Hno). lia.
Qed.

Lemma block_comment_skipped_witness :
  let code := lit "/* a" ++ NL :: lit "b */ x" in
  let la' := tokenize_step init_lexical_analyzer code in
  tokens la' = [] /\ current_pos la' = 9 /\ line_no la' = 2.
Proof.
  intros code la'.
  destruct (block_comment_skipped init_lexical_analyzer code)
    as (H1 & _ & _ & _ & H2 & H3 & _); try reflexivity; try (cbv; congruence).
  split; [exact H1|]. split.
  - apply (H3 7); try reflexivity; try (cbv; congruence).
    intros k Hk. change (current_pos init_lexical_analyzer + 2) with 2 in Hk.
    assert (k = 2 \/ k = 3 \/ k = 4 \/ k = 5 \/ k = 6)
      as [-> | [-> | [-> | [-> | ->]]]] by lia;
      cbv; intros [A B]; discriminate.
  - exact H2.
Defined.

(** ** The line counter *)

Lemma tokenize_step_lines la code :
  initialized la ->
  0 <= current_pos la < strlen code ->
  line_no la <= line_no (tokenize_step la code) <=
  line_no la
  + count_nl (slice code (current_pos la)
                (Z.min (current_pos (tokenize_step la code)) (strlen code))).
Proof.
  intros Hi Hp.
  pose proof (tokenize_step_progress la code Hi Hp) as Hpr.
  pose proof (count_nl_nonneg
                (slice code (current_pos la)
                   (Z.min (current_pos (tokenize_step la code)) (strlen code)))) as Hnn.
  destruct (is_whitespace (char_at code (current_pos la))) eqn:Hw.
  - assert (Hst : tokenize_step la code =
                  set_current_pos
                    (if Ascii.eqb (char_at code (current_pos la)) NL
                     then set_line_no la (line_no la + 1) else la)
                    (current_pos la + 1))
      by (unfold tokenize_step; rewrite Hw;
          destruct (Ascii.eqb (char_at code (current_pos la)) NL); reflexivity).
    rewrite Hst. cbn [current_pos set_current_pos].
    replace (Z.min (current_pos la + 1) (strlen code)) with (current_pos la + 1) by lia.
    rewrite (slice_unfold code (current_pos la)), slice_empty, count_nl_single by lia.
    destruct (Ascii.eqb (char_at code (current_pos la)) NL); cbn; lia.
  - destruct (Ascii.eqb (char_at code (current_pos la)) "/"
              && (current_pos la + 1 <? strlen code)
              && Ascii.eqb (char_at code (current_pos la + 1)) "*") eqn:Hb.
    + apply andb_true_iff in Hb. destruct Hb as [Hb H2].
      apply andb_true_iff in Hb. destruct Hb as [H1 Hlt].
      apply Ascii.eqb_eq in H1, H2. apply Z.ltb_lt in Hlt.
      pose proof (block_comment_state la code Hlt H1 H2) as Hst.
      assert (Hpos : current_pos (tokenize_step la code) = fst (block_end la code) + 1)
        by (rewrite Hst; reflexivity).
      assert (Hline : line_no (tokenize_step la code) =
                      line_no la
                      + count_nl (slice code (current_pos la + 2) (fst (block_end la code)))).
      { rewrite Hst. cbn [line_no set_current_pos set_line_no].
        unfold block_end. apply skip_block_loop_lines. lia. }
      clear Hst. rewrite Hline.
      destruct (block_end_bounds la code Hlt) as [Hbe _].
      rewrite Hpos in *.
      pose proof (count_nl_nonneg
                    (slice code (current_pos la + 2) (fst (block_end la code)))).
      split; [lia|].
      set (r := fst (block_end la code)) in *.
      rewrite (slice_split code (current_pos la) (current_pos la + 2)
                 (Z.min (r + 1) (strlen code))) by lia.
      rewrite (slice_split code (current_pos la + 2) r
                 (Z.min (r + 1) (strlen code))) by lia.
      rewrite !count_nl_app.
      pose proof (count_nl_nonneg (slice code (current_pos la) (current_pos la + 2))).
      pose proof (count_nl_nonneg (slice code r (Z.min (r + 1) (strlen code)))).
      lia.
    + assert (Hl : line_no (tokenize_step la code) = line_no la).
      { clear Hpr Hnn. revert Hb. unfold tokenize_step.
        rewrite ?read_lexeme_eq, ?read_string_eq, ?read_character_eq, ?skip_comment_eq.
        unfold read_operator, push_token, push_symbol, push_lexical_error.
        rewrite Hw. cbv zeta. intros Hb.
        repeat break_if; cbn -[Z.add Z.sub lit]; try reflexivity.
        all: exfalso.
        all: repeat match goal with
               | H : (_ && _) = true |- _ => apply andb_true_iff in H; destruct H
               | H : (_ || _) = true |- _ => apply orb_true_iff in H
               end.
        all: repeat match goal with
               | H : ?a = true, H' : context [?a] |- _ => rewrite H in H'
               end.
        all: cbn in Hb; try discriminate Hb.
        all: try congruence. }
      rewrite Hl. lia.
Qed.

(** X13: a scan never decreases the line counter and increases it by at most
    the number of newlines of the input. *)
Theorem line_counter_bounded (la : LexicalAnalyzer) (code : cstr) :
  initialized la ->
  exists la',
    tokenize la code = Some la' /\
    line_no la <= line_no la' <= line_no la + count_newlines code.
Proof.
  intros Hi.
  destruct (tokenize_invariant code
              (fun s => current_pos s <= strlen code + 1 /\
                        line_no la <= line_no s <=
                        line_no la
                        + count_nl (slice code 0 (Z.min (current_pos s) (strlen code))))
              la Hi) as (la' & Ht & _ & (_ & H) & Hend).
  - cbn [current_pos set_current_pos line_no set_tokens].
    pose proof (strlen_nonneg code).
    replace (Z.min 0 (strlen code)) with 0 by lia. rewrite slice_empty. cbn. lia.
  - intros s Hs Hp (Hb & HI).
    pose proof (tokenize_step_progress s code Hs Hp) as Hpr.
    pose proof (tokenize_step_lines s code Hs Hp) as Hl.
    split; [lia|].
    rewrite (slice_split code 0 (current_pos s)
               (Z.min (current_pos (tokenize_step s code)) (strlen code))) by lia.
    rewrite count_nl_app.
    replace (Z.min (current_pos s) (strlen code)) with (current_pos s) in HI by lia.
    lia.
  - exists la'. split; [exact Ht|].
    rewrite count_newlines_slice.
    replace (Z.min (current_pos la') (strlen code)) with (strlen code) in H by lia.
    exact H.
Qed.

Lemma line_counter_bounded_witness :
  exists la',
    tokenize init_lexical_analyzer (lit "a" ++ NL :: lit "// c" ++ NL :: lit "b") = Some la' /\
    1 <= line_no la' <= 1 + count_newlines (lit "a" ++ NL :: lit "// c" ++ NL :: lit "b").
Proof.
  apply (line_counter_bounded init_lexical_analyzer). repeat split.
Defined.

(** ** Lookahead *)

Lemma peek_loop_spec fuel code len pos :
  len - pos <= Z.of_nat fuel ->
  let r := peek_loop fuel code len pos in
  pos <= r /\ (r <= len \/ r = pos) /\
  (forall j, pos <= j < r -> is_whitespace (char_at code j) = true) /\
  (r < len -> is_whitespace (char_at code r) = false).
Proof.
  revert pos. induction fuel as [|f IH]; intros pos Hf; cbn [peek_loop]; cbv zeta.
  - split; [lia|]. split; [lia|]. split; intros; lia.
  - destruct (pos <? len) eqn:Hlt; cbn [andb].
    + apply Z.ltb_lt in Hlt.
      destruct (is_whitespace (char_at code pos)) eqn:Hw.
      * destruct (IH (pos + 1)) as (H1 & H2 & H3 & H4); [lia|].
        split; [lia|]. split; [lia|]. split; [|exact H4].
        intros j Hj. destruct (Z.eq_dec j pos) as [->|ne]; [exact Hw|].
        apply H3. lia.
      * split; [lia|]. split; [lia|]. split; [intros; lia|]. intros _. exact Hw.
    + apply Z.ltb_ge in Hlt. split; [lia|]. split; [lia|]. split; intros; lia.
Qed.

(** X14: the lookahead returns the first character after the cursor that is
    not whitespace, or NUL when only whitespace is left before the end of the
    input; it never returns a whitespace character. *)
Theorem peek_next_non_whitespace_spec (la : LexicalAnalyzer) (code : cstr) :
  -1 <= current_pos la ->
  let c := peek_next_non_whitespace la code in
  is_whitespace c = false /\
  ((c = NUL /\
    forall j, current_pos la < j < strlen code ->
              is_whitespace (char_at code j) = true) \/
   (exists i, current_pos la < i < strlen code /\
              c = char_at code i /\ c <> NUL /\
              forall j, current_pos la < j < i ->
                        is_whitespace (char_at code j) = true)).
Proof.
  intros Hp c. unfold c, peek_next_non_whitespace.
  destruct (peek_loop_spec (Z.to_nat (strlen code - (current_pos la + 1))) code
              (strlen code) (current_pos la + 1)) as (H1 & H2 & H3 & H4); [lia|].
  set (r := peek_loop _ code (strlen code) (current_pos la + 1)) in *.
  destruct (r <? strlen code) eqn:Hlt.
  - apply Z.ltb_lt in Hlt. split; [apply H4; exact Hlt|].
    right. exists r. split; [lia|]. split; [reflexivity|].
    split; [apply char_at_not_NUL; lia|].
    intros j Hj. apply H3. lia.
  - apply Z.ltb_ge in Hlt. split; [reflexivity|].
    left. split; [reflexivity|]. intros j Hj. apply H3. lia.
Qed.

Lemma peek_next_non_whitespace_spec_witness :
  peek_next_non_whitespace init_lexical_analyzer (lit "f   (x)") = "("%char /\
  is_whitespace (peek_next_non_whitespace init_lexical_analyzer (lit "f   (x)")) = false.
Proof.
  destruct (peek_next_non_whitespace_spec init_lexical_analyzer (lit "f   (x)"))
    as [H _]; [cbv; congruence|].
  split; [reflexivity | exact H].
Defined.

(** ** Input made of whitespace only *)

Lemma set_cursor_line_same la pos line :
  pos = current_pos la -> line = line_no la ->
  set_current_pos (set_line_no la line) pos = la.
Proof. intros -> ->. destruct la. reflexivity. Qed.

Lemma tokenize_loop_whitespace code :
  (forall i, 0 <= i < strlen code -> is_whitespace (char_at code i) = true) ->
  forall fuel la,
    0 <= current_pos la <= strlen code ->
    strlen code - current_pos la <= Z.of_nat fuel ->
    tokenize_loop fuel la code =
    Some (set_current_pos
            (set_line_no la
               (line_no la + count_nl (slice code (current_pos la) (strlen code))))
            (strlen code)).
Proof.
  intros Hws. induction fuel as [|f IH]; intros la Hp Hf.
  - assert (E : current_pos la = strlen code) by lia.
    rewrite tokenize_loop_done by lia. rewrite E, slice_empty.
    f_equal. symmetry. apply set_cursor_line_same;
      [lia | change (count_nl []) with 0; lia].
  - destruct (Z.eq_dec (current_pos la) (strlen code)) as [E|ne].
    + rewrite tokenize_loop_done by lia. rewrite E, slice_empty.
      f_equal. symmetry. apply set_cursor_line_same;
        [lia | change (count_nl []) with 0; lia].
    + rewrite tokenize_loop_unfold by lia.
      assert (Hst : tokenize_step la code =
                    set_current_pos
                      (set_line_no la
                         (if Ascii.eqb (char_at code (current_pos la)) NL
                          then line_no la + 1 else line_no la))
                      (current_pos la + 1)).
      { unfold tokenize_step. rewrite (Hws (current_pos la)) by lia.
        destruct (Ascii.eqb (char_at code (current_pos la)) NL);
          destruct la; reflexivity. }
      rewrite Hst, IH by (cbn; lia).
      cbn [current_pos line_no set_current_pos set_line_no].
      rewrite (slice_unfold code (current_pos la) (strlen code)) by lia.
      change (char_at code (current_pos la) :: ?l)
        with ([char_at code (current_pos la)] ++ l).
      rewrite count_nl_app, count_nl_single.
      unfold set_current_pos, set_line_no.
      cbn [keywords operators punctuation operator_chars symbol_table
           lexical_errors tokens current_pos line_no].
      do 2 f_equal.
      destruct (Ascii.eqb (char_at code (current_pos la)) NL); lia.
Qed.

(** X15: an input shorter than [INT_MAX] characters that holds only
    whitespace, the empty input included, yields no token and leaves the
    symbol table and the error list as they were; the line counter grows by
    exactly the number of newlines and the cursor ends at the input length,
    which an [int] holds. *)
Theorem whitespace_only_input (la : LexicalAnalyzer) (code : cstr) :
  strlen code < INT_MAX ->
  (forall i, 0 <= i < strlen code -> is_whitespace (char_at code i) = true) ->
  exists la',
    tokenize la code = Some la' /\
    tokens la' = [] /\
    symbol_table la' = symbol_table la /\
    lexical_errors la' = lexical_errors la /\
    line_no la' = line_no la + count_newlines code /\
    current_pos la' = strlen code /\
    current_pos la' < INT_MAX.
Proof.
  intros Hlen Hws. unfold tokenize.
  rewrite (tokenize_loop_whitespace code Hws).
  - eexists. split; [reflexivity|].
    cbn [tokens symbol_table lexical_errors line_no current_pos
         set_current_pos set_line_no set_tokens].
    rewrite count_newlines_slice.
    split; [reflexivity|]. split; [reflexivity|]. split; [reflexivity|].
    split; [reflexivity|]. split; [reflexivity | exact Hlen].
  - cbn. pose proof (strlen_nonneg code). lia.
  - cbn. lia.
Qed.

Lemma whitespace_only_input_witness :
  exists la',
    tokenize init_lexical_analyzer (lit " " ++ NL :: lit "  " ++ [NL]) = Some la' /\
    tokens la' = [] /\
    symbol_table la' = [] /\
    lexical_errors la' = [] /\
    line_no la' = 1 + count_newlines (lit " " ++ NL :: lit "  " ++ [NL]) /\
    current_pos la' = 5 /\
    current_pos la' < INT_MAX.
Proof.
  apply (whitespace_only_input init_lexical_analyzer).
  - reflexivity.
  - intros i Hi. change (strlen (lit " " ++ NL :: lit "  " ++ [NL])) with 5 in Hi.
    assert (i = 0 \/ i = 1 \/ i = 2 \/ i = 3 \/ i = 4)
      as [-> | [-> | [-> | [-> | ->]]]] by lia; reflexivity.
Defined.

(** ** The symbol table as a set with insertion order *)

(** X16: [push_symbol] inserts: the identifier is in the table afterwards,
    the earlier entries stay in place in front, nothing else appears, a table
    without duplicates stays so, and pushing an identifier that is already
    there (in particular pushing twice) changes nothing. *)
Theorem push_symbol_insert (la : LexicalAnalyzer) (x : cstr) :
  In x (symbol_table (push_symbol la x)) /\
  (exists more, symbol_table (push_symbol la x) = symbol_table la ++ more) /\
  (forall y, In y (symbol_table (push_symbol la x)) ->
             y = x \/ In y (symbol_table la)) /\
  (NoDup (symbol_table la) -> NoDup (symbol_table (push_symbol la x))) /\
  (In x (symbol_table la) -> push_symbol la x = la) /\
  push_symbol (push_symbol la x) x = push_symbol la x.
Proof.
  assert (Hin : In x (symbol_table (push_symbol la x))).
  { unfold push_symbol. destruct (existsb _ _) eqn:E.
    - apply existsb_cstr_eqb. exact E.
    - cbn. apply in_or_app. right. left. reflexivity. }
  assert (Hfix : forall s, In x (symbol_table s) -> push_symbol s x = s).
  { intros s H. unfold push_symbol. apply existsb_cstr_eqb in H. rewrite H. reflexivity. }
  split; [exact Hin|]. split; [|split; [|split; [|split]]].
  - unfold push_symbol. destruct (existsb _ _).
    + exists []. symmetry. apply app_nil_r.
    + exists [x]. reflexivity.
  - intros y. unfold push_symbol. destruct (existsb _ _); cbn.
    + intros H. right. exact H.
    + intros H. apply in_app_or in H. destruct H as [H|[<-|[]]]; auto.
  - intros Hnd. unfold push_symbol. destruct (existsb _ _) eqn:E; cbn; [exact Hnd|].
    apply NoDup_app; [exact Hnd | repeat constructor; intros [] |].
    intros y Hy [<-|[]]. apply existsb_cstr_eqb in Hy. congruence.
  - apply Hfix.
  - apply Hfix. exact Hin.
Qed.

(** ** Tokens are slices of the input *)

Lemma run_at_slice (code : cstr) (p : Z) :
  0 <= p <= strlen code ->
  run_at code p = slice code p (p + Z.of_nat (List.length (run_at code p))).
Proof.
  intros Hp.
  assert (H : forall n p, 0 <= p <= strlen code -> strlen code - p <= Z.of_nat n ->
                run_at code p = slice code p (p + Z.of_nat (List.length (run_at code p)))).
  { induction n as [|n IH]; intros q Hq Hn; rewrite (run_at_unfold code q) by lia.
    - assert (q = strlen code) as -> by lia.
      rewrite char_at_strlen, is_delim_NUL. cbn [List.length].
      rewrite Z.add_0_r, slice_empty. reflexivity.
    - destruct (is_delim (char_at code q)) eqn:E.
      + cbn [List.length]. rewrite Z.add_0_r, slice_empty. reflexivity.
      + assert (q < strlen code).
        { destruct (Z.eq_dec q (strlen code)) as [->|ne]; [|lia].
          rewrite char_at_strlen, is_delim_NUL in E. discriminate E. }
        cbn [List.length]. rewrite (slice_unfold code q) by lia.
        f_equal. rewrite (IH (q + 1)) at 1 by lia. f_equal. lia. }
  apply (H (Z.to_nat (strlen code - p))); lia.
Qed.

Lemma read_quoted_loop_slice fuel code quote buf pos :
  0 <= pos <= strlen code ->
  strlen code - pos <= Z.of_nat fuel ->
  (List.length buf <= 255)%nat ->
  fst (read_quoted_loop fuel code (strlen code) quote buf pos) =
  firstn 255
    (buf ++ slice code pos
              (Z.min (snd (read_quoted_loop fuel code (strlen code) quote buf pos) + 1)
                 (strlen code))).
Proof.
  revert buf pos. induction fuel as [|f IH]; intros buf pos Hp Hf Hl;
    cbn [read_quoted_loop].
  - cbn [fst snd]. assert (pos = strlen code) as -> by lia.
    replace (Z.min (strlen code + 1) (strlen code)) with (strlen code) by lia.
    rewrite slice_empty, app_nil_r, firstn_all2 by lia. reflexivity.
  - destruct (pos <? strlen code) eqn:Hlt.
    + apply Z.ltb_lt in Hlt.
      set (buf' := if Z.of_nat (List.length buf) <? 255
                   then buf ++ [char_at code pos] else buf).
      assert (Hl' : (List.length buf' <= 255)%nat).
      { unfold buf'. destruct (Z.of_nat (List.length buf) <? 255) eqn:Hb; [|exact Hl].
        apply Z.ltb_lt in Hb. rewrite length_app. cbn. lia. }
      assert (Hcut : forall l,
                 firstn 255 (buf' ++ l) = firstn 255 (buf ++ char_at code pos :: l)).
      { intros l. unfold buf'. destruct (Z.of_nat (List.length buf) <? 255) eqn:Hb.
        - rewrite <- app_assoc. reflexivity.
        - apply Z.ltb_ge in Hb. rewrite !firstn_app_exact by lia. reflexivity. }
      destruct (Ascii.eqb (char_at code pos) quote).
      * cbn [fst snd].
        replace (Z.min (pos + 1) (strlen code)) with (pos + 1) by lia.
        rewrite (slice_unfold code pos (pos + 1)), slice_empty by lia.
        rewrite <- Hcut, app_nil_r, firstn_all2 by exact Hl'. reflexivity.
      * rewrite IH by (try lia; exact Hl').
        pose proof (read_quoted_loop_bounds f code (strlen code) quote buf' (pos + 1))
          as [Hb _].
        rewrite Hcut. rewrite <- (slice_unfold code pos) by lia. reflexivity.
    + apply Z.ltb_ge in Hlt. cbn [fst snd]. assert (pos = strlen code) as -> by lia.
      replace (Z.min (strlen code + 1) (strlen code)) with (strlen code) by lia.
      rewrite slice_empty, app_nil_r, firstn_all2 by lia. reflexivity.
Qed.

Lemma quoted_text_slice la code quote :
  0 <= current_pos la < strlen code ->
  char_at code (current_pos la) = quote ->
  quoted_text la code quote =
  kept_text code (current_pos la, Z.min (quoted_end la code quote + 1) (strlen code)).
Proof.
  intros Hp Hc. unfold quoted_text, quoted_end, kept_text. cbn [fst snd].
  rewrite read_quoted_loop_slice; [| lia | lia | cbn; lia].
  pose proof (read_quoted_loop_bounds
                (Z.to_nat (strlen code - (current_pos la + 1))) code (strlen code)
                quote [quote] (current_pos la + 1)) as [Hb _].
  rewrite (slice_unfold code (current_pos la)) by lia.
  rewrite Hc. reflexivity.
Qed.

Lemma tokenize_step_slice la code :
  initialized la ->
  0 <= current_pos la < strlen code ->
  tokens (tokenize_step la code) = tokens la \/
  exists t e,
    tokens (tokenize_step la code) = tokens la ++ [t] /\
    value t = kept_text code (current_pos la, e) /\
    current_pos la < e <= Z.min (current_pos (tokenize_step la code)) (strlen code).
Proof.
  intros Hi Hp.
  assert (Hlex : lexeme_start (char_at code (current_pos la)) = true ->
                 lexeme_of la code = kept_text code (current_pos la, lexeme_end la code) /\
                 current_pos la < lexeme_end la code <= strlen code).
  { intros Hs. destruct (lexeme_of_run la code Hi) as [H1 H2]; [lia|].
    pose proof (lexeme_end_bounds la code Hi Hp Hs).
    split; [|lia]. unfold kept_text. cbn [fst snd].
    rewrite H1, H2. rewrite <- run_at_slice by lia. reflexivity. }
  unfold lexeme_start in Hlex.
  pose proof (quoted_text_slice la code DQUOTE Hp) as HD.
  pose proof (quoted_text_slice la code SQUOTE Hp) as HS.
  pose proof (quoted_end_bounds la code DQUOTE (proj2 Hp)) as HDb.
  pose proof (quoted_end_bounds la code SQUOTE (proj2 Hp)) as HSb.
  assert (H1 : [char_at code (current_pos la)] =
               kept_text code (current_pos la, current_pos la + 1)).
  { unfold kept_text. cbn [fst snd].
    rewrite (slice_unfold code (current_pos la)), slice_empty by lia. reflexivity. }
  assert (H2 : current_pos la + 1 < strlen code ->
               [char_at code (current_pos la); char_at code (current_pos la + 1)] =
               kept_text code (current_pos la, current_pos la + 1 + 1)).
  { intros Hlt. unfold kept_text. cbn [fst snd].
    rewrite (slice_unfold code (current_pos la)) by lia.
    rewrite (slice_unfold code (current_pos la + 1)), slice_empty by lia. reflexivity. }
  unfold tokenize_step.
  rewrite ?read_lexeme_eq, ?read_string_eq, ?read_character_eq, ?skip_comment_eq.
  unfold read_operator, push_token, push_symbol, push_lexical_error. cbv zeta.
  repeat break_if; cbn -[Z.add Z.sub Z.min lit kept_text].
  all: try (left; reflexivity).
  all: try match goal with
           | H : (0 <? strlen _) = _ |- _ => vm_compute in H; discriminate H
           end.
  all: try specialize (Hlex eq_refl).
  all: try match goal with
           | H : lexeme_of _ _ = _ |- _ => try rewrite H in Hlex
           end.
  all: right; eexists; eexists; split; [reflexivity|]; cbn [value].
  all: repeat match goal with
         | H : (_ && _) = true |- _ => apply andb_true_iff in H; destruct H
         | H : (_ <? _) = true |- _ => apply Z.ltb_lt in H
         | H : Ascii.eqb _ _ = true |- _ => apply Ascii.eqb_eq in H
         end.
  all: first
    [ split; [apply Hlex | lia]
    | split; [apply HD; assumption | lia]
    | split; [apply HS; assumption | lia]
    | split; [apply H2; assumption | lia]
    | split; [apply H1 | lia] ].
Qed.

Lemma chain_weaken ivs : forall lo hi hi',
  chain lo ivs hi -> hi <= hi' -> chain lo ivs hi'.
Proof.
  induction ivs as [|[a b] r IH]; intros lo hi hi' H Hle; cbn in *.
  - lia.
  - destruct H as (H1 & H2 & H3). repeat split; try assumption. eapply IH; eassumption.
Qed.

Lemma chain_snoc ivs : forall lo hi a b hi',
  chain lo ivs hi -> hi <= a -> a < b -> b <= hi' ->
  chain lo (ivs ++ [(a, b)]) hi'.
Proof.
  induction ivs as [|[x y] r IH]; intros lo hi a b hi' H Ha Hab Hb; cbn in *.
  - repeat split; lia.
  - destruct H as (H1 & H2 & H3). repeat split; try assumption. eapply IH; eassumption.
Qed.

(** X17: the values of the tokens of a scan are pieces of the input, in input
    order: there are non-empty, pairwise disjoint, increasing intervals of
    positions below the terminator such that the i-th token's value is the
    text of the i-th interval, cut to the 255 characters a value can hold. *)
Theorem tokens_are_input_slices la code :
  initialized la ->
  exists la' ivs,
    tokenize la code = Some la' /\
    map value (tokens la') = map (kept_text code) ivs /\
    chain 0 ivs (strlen code).
Proof.
  intros Hi.
  destruct (tokenize_invariant code
              (fun s => 0 <= current_pos s /\
                        exists ivs, map value (tokens s) = map (kept_text code) ivs /\
                                    chain 0 ivs (Z.min (current_pos s) (strlen code)))
              la Hi) as (la' & Ht & _ & (_ & ivs & Hm & Hc) & _).
  - cbn. split; [lia|]. exists []. split; [reflexivity|].
    cbn. pose proof (strlen_nonneg code). lia.
  - intros s Hs Hp (_ & ivs & Hm & Hc).
    pose proof (tokenize_step_progress s code Hs Hp) as Hpr.
    split; [lia|].
    destruct (tokenize_step_slice s code Hs Hp) as [He | (t & e & He & Hv & Hb)].
    + exists ivs. rewrite He. split; [assumption|].
      eapply chain_weaken; [eassumption | lia].
    + exists (ivs ++ [(current_pos s, e)]). rewrite He, !map_app, Hm. cbn [map].
      rewrite Hv. split; [reflexivity|].
      eapply chain_snoc; [eassumption | lia | lia | lia].
  - exists la', ivs. split; [assumption|]. split; [assumption|].
    eapply chain_weaken; [eassumption | lia].
Qed.

Lemma tokens_are_input_slices_witness :
  initialized init_lexical_analyzer /\
  exists la' ivs,
    tokenize init_lexical_analyzer (lit "x = y + 10;") = Some la' /\
    map value (tokens la') = map (kept_text (lit "x = y + 10;")) ivs /\
    chain 0 ivs (strlen (lit "x = y + 10;")).
Proof.
  assert (H : initialized init_lexical_analyzer) by (repeat split).
  split; [exact H | exact (tokens_are_input_slices init_lexical_analyzer _ H)].
Defined.

(** ** What the scanner reads of its input *)

(** Every loop of the scanner looks at [code] only at positions up to and
    including its terminator: two inputs that agree there are scanned alike. *)
Section SameString.

Variables c1 c2 : cstr.
Hypothesis Hlen : strlen c1 = strlen c2.
Hypothesis Hch : forall i, i <= strlen c1 -> char_at c1 i = char_at c2 i.

Lemma peek_loop_same fuel : forall pos,
  peek_loop fuel c1 (strlen c1) pos = peek_loop fuel c2 (strlen c1) pos.
Proof.
  induction fuel as [|f IH]; intros pos; cbn [peek_loop]; [reflexivity|].
  destruct (pos <? strlen c1) eqn:E; cbn [andb]; [|reflexivity].
  apply Z.ltb_lt in E. rewrite Hch by lia.
  destruct (is_whitespace _); [apply IH | reflexivity].
Qed.

Lemma peek_next_non_whitespace_same la :
  peek_next_non_whitespace la c1 = peek_next_non_whitespace la c2.
Proof.
  unfold peek_next_non_whitespace. rewrite <- Hlen, peek_loop_same.
  destruct (_ <? _) eqn:E; [|reflexivity].
  apply Z.ltb_lt in E. apply Hch. lia.
Qed.

Lemma read_lexeme_loop_same fuel la : forall lexeme pos,
  read_lexeme_loop fuel la c1 (strlen c1) lexeme pos =
  read_lexeme_loop fuel la c2 (strlen c1) lexeme pos.
Proof.
  induction fuel as [|f IH]; intros lexeme pos; cbn [read_lexeme_loop]; [reflexivity|].
  destruct (pos <? strlen c1) eqn:E; cbn [andb]; [|reflexivity].
  apply Z.ltb_lt in E. rewrite Hch by lia.
  destruct (_ && _); [apply IH | reflexivity].
Qed.

Lemma read_lexeme_same la : read_lexeme la c1 = read_lexeme la c2.
Proof.
  unfold read_lexeme. rewrite <- Hlen, read_lexeme_loop_same.
  destruct (read_lexeme_loop _ _ _ _ _ _) as [lexeme pos].
  rewrite peek_next_non_whitespace_same. reflexivity.
Qed.

Lemma read_quoted_loop_same fuel quote : forall buf pos,
  read_quoted_loop fuel c1 (strlen c1) quote buf pos =
  read_quoted_loop fuel c2 (strlen c1) quote buf pos.
Proof.
  induction fuel as [|f IH]; intros buf pos; cbn [read_quoted_loop]; [reflexivity|].
  destruct (pos <? strlen c1) eqn:E; [|reflexivity].
  apply Z.ltb_lt in E. rewrite Hch by lia.
  destruct (Ascii.eqb _ _); [reflexivity | apply IH].
Qed.

Lemma read_string_same la : read_string la c1 = read_string la c2.
Proof. unfold read_string. rewrite <- Hlen, read_quoted_loop_same. reflexivity. Qed.

Lemma read_character_same la : read_character la c1 = read_character la c2.
Proof. unfold read_character. rewrite <- Hlen, read_quoted_loop_same. reflexivity. Qed.

Lemma read_operator_same la :
  current_pos la <= strlen c1 -> read_operator la c1 = read_operator la c2.
Proof.
  intros Hp. unfold read_operator. rewrite <- Hlen, (Hch (current_pos la)) by lia.
  destruct (_ <? _) eqn:E; [|reflexivity].
  apply Z.ltb_lt in E. rewrite (Hch (current_pos la + 1)) by lia. reflexivity.
Qed.

Lemma skip_line_loop_same fuel : forall pos,
  skip_line_loop fuel c1 (strlen c1) pos = skip_line_loop fuel c2 (strlen c1) pos.
Proof.
  induction fuel as [|f IH]; intros pos; cbn [skip_line_loop]; [reflexivity|].
  destruct (pos <? strlen c1) eqn:E; cbn [andb]; [|reflexivity].
  apply Z.ltb_lt in E. rewrite Hch by lia.
  destruct (negb _); [apply IH | reflexivity].
Qed.

Lemma skip_block_loop_same fuel : forall pos line,
  skip_block_loop fuel c1 (strlen c1) pos line =
  skip_block_loop fuel c2 (strlen c1) pos line.
Proof.
  induction fuel as [|f IH]; intros pos line; cbn [skip_block_loop]; [reflexivity|].
  destruct (pos <? strlen c1 - 1) eqn:E; [|reflexivity].
  apply Z.ltb_lt in E. rewrite (Hch pos), (Hch (pos + 1)) by lia.
  destruct (_ && _); [reflexivity | apply IH].
Qed.

Lemma skip_comment_same la : skip_comment la c1 = skip_comment la c2.
Proof.
  unfold skip_comment. rewrite <- Hlen.
  destruct (current_pos la + 1 <? strlen c1) eqn:E; cbn [andb]; [|reflexivity].
  apply Z.ltb_lt in E.
  rewrite (Hch (current_pos la)), (Hch (current_pos la + 1)) by lia.
  rewrite skip_line_loop_same, skip_block_loop_same. reflexivity.
Qed.

Lemma tokenize_step_same la :
  current_pos la <= strlen c1 -> tokenize_step la c1 = tokenize_step la c2.
Proof.
  intros Hp. unfold tokenize_step.
  rewrite <- Hlen, (Hch (current_pos la)) by lia.
  rewrite skip_comment_same, read_lexeme_same, read_string_same, read_character_same,
    (read_operator_same la Hp).
  destruct (current_pos la + 1 <? strlen c1) eqn:E.
  - apply Z.ltb_lt in E. rewrite (Hch (current_pos la + 1)) by lia. reflexivity.
  - rewrite !andb_false_r. cbn [andb]. reflexivity.
Qed.

Lemma tokenize_loop_same fuel : forall la,
  tokenize_loop fuel la c1 = tokenize_loop fuel la c2.
Proof.
  induction fuel as [|f IH]; intros la; cbn [tokenize_loop]; rewrite <- Hlen.
  - reflexivity.
  - destruct (current_pos la <? strlen c1) eqn:E; [|reflexivity].
    apply Z.ltb_lt in E. rewrite tokenize_step_same by lia. apply IH.
Qed.

End SameString.

(** X18: the scan reads its input only up to the terminator: two inputs of
    the same length that hold the same characters up to and including the
    terminator give the same result, whatever the analyzer holds and whatever
    follows the terminator in either buffer. *)
Theorem tokenize_reads_up_to_terminator la c1 c2 :
  same_string c1 c2 -> tokenize la c1 = tokenize la c2.
Proof.
  intros [Hlen Hch]. unfold tokenize. rewrite <- Hlen.
  apply tokenize_loop_same; assumption.
Qed.

Lemma tokenize_reads_up_to_terminator_witness :
  same_string (lit "a+b") (lit "a+b" ++ NUL :: lit "int x;") /\
  tokenize init_lexical_analyzer (lit "a+b") =
  tokenize init_lexical_analyzer (lit "a+b" ++ NUL :: lit "int x;").
Proof.
  assert (H : same_string (lit "a+b") (lit "a+b" ++ NUL :: lit "int x;")).
  { split; [reflexivity|]. intros i Hi. change (strlen (lit "a+b")) with 3 in Hi.
    unfold char_at. destruct (i <? 0) eqn:E; [reflexivity|]. apply Z.ltb_ge in E.
    assert (Hc : i = 0 \/ i = 1 \/ i = 2 \/ i = 3) by lia.
    destruct Hc as [-> | [-> | [-> | ->]]]; reflexivity. }
  split; [exact H | exact (tokenize_reads_up_to_terminator init_lexical_analyzer _ _ H)].
Defined.
